(** * The email action-token handler of [server/routes/emailActions_Manager.ts]

    A shallow embedding of the Express route [GET /:action/:token] and of
    the SQL statements it issues on its pooled connection, followed by the
    properties of the booking lifecycle that the handler establishes.
    The booking form and the timeslot list of
    [client/src/_User/BookTimeslot.tsx] are embedded beside it: form
    validation, the guards of a guest request, the calendar of available
    days and the selection of timeslots.

    The store is a record of three tables (lists of rows, in table order).
    The handler is written in a small state-and-exception monad: the state is
    the connection's view of the store, the open transaction, the number of
    store calls issued, the events completed so far and the response object;
    a computation completes normally, by [return;] or by a thrown error. *)

From Stdlib Require Import ZArith List String Ascii Bool Lia DecimalString.
Import ListNotations.

Local Open Scope string_scope.
Local Open Scope Z_scope.

(** ** Rows of the three tables *)

Module Token.
(** Modelled from the spec: the schema of [email_action_tokens] is not
    declared in the handler's file.  The handler reads [id], [booking_id]
    and, through its WHERE clause, [token], [used] and [expires]; it writes
    [used] and [used_at].  The column [action] is the bound action of the
    data model (section 3); no statement of the handler mentions it. *)
Record row : Type := mk {
  id : Z;
  token : string;
  booking_id : Z;
  action : string;
  used : Z;
  used_at : option Z;
  expires : Z
}.

Definition set_used (now : Z) (r : row) : row :=
  mk (id r) (token r) (booking_id r) (action r) 1 (Some now) (expires r).

Definition set_action (a : string) (r : row) : row :=
  mk (id r) (token r) (booking_id r) a (used r) (used_at r) (expires r).
End Token.

Module Booking.
(** Modelled from the spec: the schema of [bookings] is not declared in
    the handler's file.  A row is one reservable window on one
    infrastructure together with the claim a requester may hold on it
    (section 3); the handler reads [id], [status] and [infrastructure_id]
    and writes [status]. *)
Record row : Type := mk {
  id : Z;
  infrastructure_id : Z;
  booking_date : string;
  start_time : string;
  end_time : string;
  status : string
}.

Definition set_status (s : string) (b : row) : row :=
  mk (id b) (infrastructure_id b) (booking_date b) (start_time b)
     (end_time b) s.
End Booking.

Module Infrastructure.
(** Modelled from the spec: the schema of [infrastructures] is not declared
    in the handler's file.  The handler selects a row by [id] and hands it
    to the dispatcher. *)
Record row : Type := mk {
  id : Z;
  name : string
}.
End Infrastructure.

Record Database : Type := mkDatabase {
  email_action_tokens : list Token.row;
  bookings : list Booking.row;
  infrastructures : list Infrastructure.row
}.

(** ** The SQL statements of the handler, as functions on the store *)

Module Sql.

(** [SELECT * FROM email_action_tokens
     WHERE token = ? AND used = 0 AND expires > NOW()] *)
Definition token_is_valid (tok : string) (now : Z) (r : Token.row) : bool :=
  String.eqb (Token.token r) tok && (Token.used r =? 0)
  && (now <? Token.expires r).

Definition select_valid_tokens (tok : string) (now : Z) (d : Database)
  : list Token.row :=
  filter (token_is_valid tok now) (email_action_tokens d).

(** [SELECT * FROM bookings WHERE id = ?] *)
Definition select_bookings (bid : Z) (d : Database) : list Booking.row :=
  filter (fun b => Booking.id b =? bid) (bookings d).

(** [UPDATE email_action_tokens SET used = 1, used_at = NOW() WHERE id = ?] *)
Definition update_token_used (tid now : Z) (d : Database) : Database :=
  mkDatabase
    (map (fun r => if Token.id r =? tid then Token.set_used now r else r)
         (email_action_tokens d))
    (bookings d) (infrastructures d).

(** [UPDATE bookings SET status = "approved" WHERE id = ?] *)
Definition update_booking_approved (bid : Z) (d : Database) : Database :=
  mkDatabase
    (email_action_tokens d)
    (map (fun b => if Booking.id b =? bid
                   then Booking.set_status "approved" b else b)
         (bookings d))
    (infrastructures d).

(** [SELECT * FROM infrastructures WHERE id = ?] *)
Definition select_infrastructures (iid : Z) (d : Database)
  : list Infrastructure.row :=
  filter (fun i => Infrastructure.id i =? iid) (infrastructures d).

End Sql.

Arguments Sql.select_valid_tokens : simpl never.
Arguments Sql.select_bookings : simpl never.
Arguments Sql.select_infrastructures : simpl never.
Arguments Sql.update_token_used : simpl never.
Arguments Sql.update_booking_approved : simpl never.

(** ** Responses, events and the state of one request *)

(** The JSON body and status code passed to [res.status(..).json(..)]. *)
Module Response.
Record t : Type := mk {
  status : Z;
  success : bool;
  message : string;
  currentStatus : option string;
  action : option string
}.
End Response.

Inductive Statement : Type :=
| SelectToken (tok : string)
| SelectBooking (bid : Z)
| UpdateTokenUsed (tid : Z)
| UpdateBookingApproved (bid : Z)
| CallAdminRejectOrCancelBooking (bid : Z) (new_status : string)
| SelectInfrastructure (iid : Z).

(** The operations of a request, in order.  A store operation is recorded
    once it has resolved, a dispatcher call when it is made. *)
Inductive Event : Type :=
| GetConnection
| BeginTransaction
| Execute (s : Statement)
| Commit
| Rollback
| Release
| SendBookingStatusUpdate (b : Booking.row) (i : Infrastructure.row)
                          (outcome : string)
| ConsoleError
| Respond (r : Response.t).

Definition Error : Type := string.

(** [db] is the store as the connection sees it; [tx] holds the state to
    restore on rollback while a transaction is open; [steps] counts the
    store calls issued; [trace] lists the completed events, oldest first;
    [res] is the response sent, if any. *)
Record World : Type := mkWorld {
  db : Database;
  tx : option Database;
  steps : nat;
  trace : list Event;
  res : option Response.t
}.

Inductive Completion (A : Type) : Type :=
| Normal (a : A)
| Returned
| Thrown (e : Error).
Arguments Normal {A} a.
Arguments Returned {A}.
Arguments Thrown {A} e.

Definition M (A : Type) : Type := World -> Completion A * World.

Definition ret {A} (a : A) : M A := fun w => (Normal a, w).

Definition bind {A B} (m : M A) (k : A -> M B) : M B :=
  fun w =>
    match m w with
    | (Normal a, w1) => k a w1
    | (Returned, w1) => (Returned, w1)
    | (Thrown e, w1) => (Thrown e, w1)
    end.

Declare Scope handler_scope.
Delimit Scope handler_scope with handler.
Notation "x <- m ;; k" := (bind m (fun x => k))
  (at level 61, m at next level, right associativity) : handler_scope.
Notation "m ;; k" := (bind m (fun _ => k))
  (at level 61, right associativity) : handler_scope.
Local Open Scope handler_scope.

(** [return;] inside the handler body. *)
Definition return_ {A} : M A := fun w => (Returned, w).

Definition throw {A} (e : Error) : M A := fun w => (Thrown e, w).

Definition emit (e : Event) : M unit :=
  fun w => (Normal tt,
            mkWorld (db w) (tx w) (steps w) (trace w ++ [e]) (res w)).

(** [res.status(code).json(body)] *)
Definition respond (r : Response.t) : M unit :=
  fun w => (Normal tt,
            mkWorld (db w) (tx w) (steps w) (trace w ++ [Respond r]) (Some r)).

(** [try { body } catch (error) { handler } finally { fin }] *)
Definition try_catch_finally (body : M unit) (handler : Error -> M unit)
           (fin : M unit) : M unit :=
  fun w =>
    let '(c, w1) :=
      match body w with
      | (Thrown e, w0) => handler e w0
      | cw => cw
      end in
    match fin w1 with
    | (Normal _, w2) => (c, w2)
    | cw => cw
    end.

(** ** The status of a booking in a store *)

(** Booking [bid] is in status [st]: the table has a row with that id, and
    every row with that id carries the status. *)
Definition booking_has_status (bid : Z) (st : string) (d : Database) : Prop :=
  (exists x, In x (bookings d) /\ Booking.id x = bid /\ Booking.status x = st)
  /\ forall x, In x (bookings d) -> Booking.id x = bid -> Booking.status x = st.

(** Token [tid] is consumed: the table has a row with that id, and every
    row with that id has its used flag set. *)
Definition token_consumed (tid : Z) (d : Database) : Prop :=
  (exists r, In r (email_action_tokens d)
             /\ Token.id r = tid /\ Token.used r = 1)
  /\ forall r, In r (email_action_tokens d) ->
               Token.id r = tid -> Token.used r = 1.

(** ** The stored procedure *)

Module SpecModel.

(** Row [s] is for the same infrastructure, date and times as [b]. *)
Definition same_window (b s : Booking.row) : bool :=
  (Booking.infrastructure_id s =? Booking.infrastructure_id b)
  && (Booking.booking_date s =? Booking.booking_date b)%string
  && (Booking.start_time s =? Booking.start_time b)%string
  && (Booking.end_time s =? Booking.end_time b)%string.

(** The window of [b] can be reserved again: some row for the same window
    has status [available]. *)
Definition reservable (b : Booking.row) (d : Database) : bool :=
  existsb (fun s => same_window b s && (Booking.status s =? "available")%string)
          (bookings d).

(** The contract of the resource-release primitive: when the call
    succeeds, the booking with the given id is in the new status, its other
    columns as before, and its window is reservable again. *)
Definition releases_timeslot
           (proc : Z -> string -> Database -> Database + Error) : Prop :=
  forall bid new_status d d' b,
    proc bid new_status d = inl d' ->
    In b (bookings d) -> Booking.id b = bid ->
    booking_has_status bid new_status d'
    /\ In (Booking.set_status new_status b) (bookings d')
    /\ reservable b d' = true.

(** The procedure works on the timeslot store only: the token table is
    the same before and after a successful call. *)
Definition preserves_tokens
           (proc : Z -> string -> Database -> Database + Error) : Prop :=
  forall bid new_status d d',
    proc bid new_status d = inl d' ->
    email_action_tokens d' = email_action_tokens d.

Definition next_id (bs : list Booking.row) : Z :=
  1 + fold_right Z.max 0 (map Booking.id bs).

Definition released_window (new_id : Z) (b : Booking.row) : Booking.row :=
  Booking.mk new_id (Booking.infrastructure_id b) (Booking.booking_date b)
             (Booking.start_time b) (Booking.end_time b) "available".

(** Modelled from the spec: the stored procedure [AdminRejectOrCancelBooking]
    is called by the handler but defined outside its file.  By section 4.1,
    rejecting or cancelling a booking sets its status and atomically makes
    its timeslot reservable again: the rows of the booking take the new
    status, and a fresh [available] row is added for each of their
    windows. *)
Definition AdminRejectOrCancelBooking
           (bid : Z) (new_status : string) (d : Database) : Database + Error :=
  inl (mkDatabase
         (email_action_tokens d)
         (map (fun b => if Booking.id b =? bid
                        then Booking.set_status new_status b else b)
              (bookings d)
          ++ map (released_window (next_id (bookings d)))
                 (Sql.select_bookings bid d))
         (infrastructures d)).

End SpecModel.

(** ** A concrete store *)

Module Example.

Definition T1 : Token.row :=
  Token.mk 1 "T1" 42 "approve" 0 None 1000.
Definition T2 : Token.row :=
  Token.mk 2 "T2" 7 "reject" 0 None 1000.
Definition T3 : Token.row :=
  Token.mk 3 "T3" 99 "approve" 0 None 1000.
Definition T4 : Token.row :=
  Token.mk 4 "T4" 43 "approve" 0 None 1000.

Definition B42 : Booking.row :=
  Booking.mk 42 5 "2025-03-01" "10:00" "11:00" "pending".
Definition B7 : Booking.row :=
  Booking.mk 7 5 "2025-03-02" "09:00" "10:00" "approved".
Definition B43 : Booking.row :=
  Booking.mk 43 6 "2025-03-03" "09:00" "10:00" "pending".

Definition Lab : Infrastructure.row := Infrastructure.mk 5 "Lab".

Definition store : Database :=
  mkDatabase [T1; T2; T3; T4] [B42; B7; B43] [Lab].

Definition world : World := mkWorld store None 0 [] None.

Definition clock (n : nat) : Z := 100 + Z.of_nat n.
Definition reliable (n : nat) : bool := false.
Definition delivers (b : Booking.row) (i : Infrastructure.row)
           (o : string) : option Error := None.
Definition bounces (b : Booking.row) (i : Infrastructure.row)
           (o : string) : option Error := Some "SMTP failure".

(** The store fails at its eighth call, the commit of a full request. *)
Definition commit_fails (n : nat) : bool := Nat.eqb n 7.

(** The store left by [CALL AdminRejectOrCancelBooking(42, 'rejected')]. *)
Definition rejected_store : Database :=
  Eval vm_compute in
    match SpecModel.AdminRejectOrCancelBooking 42 "rejected" store with
    | inl d => d
    | inr _ => store
    end.

End Example.

(** ** Reading a trace *)

(** Every dispatcher call of [tr] is made once a commit has completed;
    [committed] tells whether one has completed before [tr]. *)
Fixpoint sends_follow_commit (committed : bool) (tr : list Event) : bool :=
  match tr with
  | [] => true
  | Commit :: tr' => sends_follow_commit true tr'
  | SendBookingStatusUpdate _ _ _ :: tr' =>
      committed && sends_follow_commit committed tr'
  | _ :: tr' => sends_follow_commit committed tr'
  end.

Definition notified_only_after_commit (tr : list Event) : bool :=
  sends_follow_commit false tr.

Definition is_send (e : Event) : bool :=
  match e with
  | SendBookingStatusUpdate _ _ _ => true
  | _ => false
  end.

Definition is_procedure_call (e : Event) : bool :=
  match e with
  | Execute (CallAdminRejectOrCancelBooking _ _) => true
  | _ => false
  end.

(** ** The booking form of [client/src/_User/BookTimeslot.tsx] *)

Module JsString.

(** A string of the client: the sequence of its UTF-16 code units. *)
Definition t : Type := list N.

(** A literal of the source whose characters are all below U+0100. *)
Definition lit (s : string) : t := map N_of_ascii (list_ascii_of_string s).

(** [s1 === s2] *)
Fixpoint eqb (s1 s2 : t) : bool :=
  match s1, s2 with
  | [], [] => true
  | c1 :: r1, c2 :: r2 => N.eqb c1 c2 && eqb r1 r2
  | _, _ => false
  end.

(** [String.prototype.trim], over the engine's white-space class
    [isWhiteSpace] on code units (the class [\s] of regular expressions is
    the same). *)
Fixpoint trimStart (isWhiteSpace : N -> bool) (s : t) : t :=
  match s with
  | [] => []
  | c :: s' => if isWhiteSpace c then trimStart isWhiteSpace s' else s
  end.

Fixpoint trimEnd (isWhiteSpace : N -> bool) (s : t) : t :=
  match s with
  | [] => []
  | c :: s' =>
      match trimEnd isWhiteSpace s' with
      | [] => if isWhiteSpace c then [] else [c]
      | rest => c :: rest
      end
  end.

Definition trim (isWhiteSpace : N -> bool) (s : t) : t :=
  trimEnd isWhiteSpace (trimStart isWhiteSpace s).

(** The string has a code unit outside the white-space class. *)
Definition visible (isWhiteSpace : N -> bool) (s : t) : Prop :=
  exists c, In c s /\ isWhiteSpace c = false.

End JsString.

Module Regex.

(** Regular expressions over code units, matched by derivatives. *)
Inductive t : Type :=
| Empty
| Eps
| Class (p : N -> bool)
| Seq (r1 r2 : t)
| Alt (r1 r2 : t)
| Star (r : t).

(** [r+] *)
Definition plus (r : t) : t := Seq r (Star r).

Fixpoint nullable (r : t) : bool :=
  match r with
  | Empty => false
  | Eps => true
  | Class _ => false
  | Seq r1 r2 => nullable r1 && nullable r2
  | Alt r1 r2 => nullable r1 || nullable r2
  | Star _ => true
  end.

Fixpoint derive (c : N) (r : t) : t :=
  match r with
  | Empty => Empty
  | Eps => Empty
  | Class p => if p c then Eps else Empty
  | Seq r1 r2 =>
      if nullable r1
      then Alt (Seq (derive c r1) r2) (derive c r2)
      else Seq (derive c r1) r2
  | Alt r1 r2 => Alt (derive c r1) (derive c r2)
  | Star r1 => Seq (derive c r1) (Star r1)
  end.

(** [/^r$/.test(s)] *)
Fixpoint test (r : t) (s : JsString.t) : bool :=
  match s with
  | [] => nullable r
  | c :: s' => test (derive c r) s'
  end.

(** The strings a regular expression denotes. *)
Inductive matches : t -> JsString.t -> Prop :=
| m_eps : matches Eps []
| m_class p c : p c = true -> matches (Class p) [c]
| m_seq r1 r2 s1 s2 :
    matches r1 s1 -> matches r2 s2 -> matches (Seq r1 r2) (s1 ++ s2)%list
| m_alt_l r1 r2 s : matches r1 s -> matches (Alt r1 r2) s
| m_alt_r r1 r2 s : matches r2 s -> matches (Alt r1 r2) s
| m_star_nil r : matches (Star r) []
| m_star_cons r s1 s2 :
    matches r s1 -> matches (Star r) s2 -> matches (Star r) (s1 ++ s2)%list.

End Regex.

Module BookTimeslot.

(** Modelled from the spec: [FilterQuestionData] is declared in [@/utils],
    outside the component's file.  Section 3 lists the question types
    (text, number, dropdown, document); the fields are those the component
    reads. *)
Record FilterQuestionData : Type := mkQuestion {
  id : Z;
  question_text : JsString.t;
  question_type : JsString.t;
  is_required : bool;
  options : option JsString.t
}.

(** The values the component stores in its answers map: the string of an
    input, a number ([None] for [NaN]), a [File], [null]; a key that is not
    set reads as [undefined]. *)
Inductive Answer : Type :=
| AString (s : JsString.t)
| ANumber (n : option Z)
| AFile (name : JsString.t)
| ANull
| AUndefined.

(** [BookingReqAnswersMap]: an object keyed by question id. *)
Definition BookingReqAnswersMap : Type := list (Z * Answer).

(** [answers[k]] *)
Definition get (answers : BookingReqAnswersMap) (k : Z) : Answer :=
  match find (fun kv => fst kv =? k) answers with
  | Some kv => snd kv
  | None => AUndefined
  end.

(** [answers[k] = v] *)
Fixpoint set (answers : BookingReqAnswersMap) (k : Z) (v : Answer)
  : BookingReqAnswersMap :=
  match answers with
  | [] => [(k, v)]
  | (k', v') :: rest =>
      if k' =? k then (k, v) :: rest else (k', v') :: set rest k v
  end.

(** [!selectedTimeslotId] is false: the id is set and is not [0]. *)
Definition selected (selectedTimeslotId : option Z) : bool :=
  match selectedTimeslotId with
  | Some n => negb (n =? 0)
  | None => false
  end.

(** [typeof answer === 'string' && answer.trim() !== ''] *)
Definition nonblank_string (isWhiteSpace : N -> bool) (answer : Answer)
  : bool :=
  match answer with
  | AString s => negb (JsString.eqb (JsString.trim isWhiteSpace s) [])
  | _ => false
  end.

(** The [switch (q.question_type)] of [validateForm]. *)
Definition isAnswerValid (isWhiteSpace : N -> bool)
           (q : FilterQuestionData) (answer : Answer) : bool :=
  if JsString.eqb (question_type q) (JsString.lit "text")
     || JsString.eqb (question_type q) (JsString.lit "dropdown")
  then nonblank_string isWhiteSpace answer
  else if JsString.eqb (question_type q) (JsString.lit "number")
  then match answer with
       | ANumber (Some _) => true
       | _ => nonblank_string isWhiteSpace answer
       end
  else if JsString.eqb (question_type q) (JsString.lit "document")
  then match answer with
       | AFile _ => true
       | _ => false
       end
  else false.

(** The [for] loop of [validateForm] over the required questions: it
    leaves with [false] at the first answer that is not valid. *)
Fixpoint validate_required (isWhiteSpace : N -> bool)
         (required : list FilterQuestionData)
         (answers : BookingReqAnswersMap) : bool :=
  match required with
  | [] => true
  | q :: rest =>
      if negb (isAnswerValid isWhiteSpace q (get answers (id q)))
      then false
      else validate_required isWhiteSpace rest answers
  end.

(** [validateForm]: the value it passes to [setIsFormValid]. *)
Definition validateForm (isWhiteSpace : N -> bool)
           (selectedTimeslotId : option Z)
           (questions : list FilterQuestionData)
           (answers : BookingReqAnswersMap) : bool :=
  if negb (selected selectedTimeslotId) then false
  else if (List.length questions =? 0)%nat then true
  else validate_required isWhiteSpace (filter is_required questions) answers.

(** The answers both the questions effect and [resetForm] install:
    [questions.forEach(q => initialAnswers[q.id] = ...)]. *)
Definition initialAnswers (questions : list FilterQuestionData)
  : BookingReqAnswersMap :=
  fold_left
    (fun acc q =>
       set acc (id q)
           (if JsString.eqb (question_type q) (JsString.lit "document")
            then ANull else AString []))
    questions [].

(** What the form asks of the answer to a required question, by the type
    of the question: a text or a dropdown wants a string with a visible
    code unit; a number wants a number that is not [NaN], or such a
    string; a document wants a [File]; a question of any other type has no
    valid answer. *)
Definition valid_answer (isWhiteSpace : N -> bool)
           (q : FilterQuestionData) (a : Answer) : Prop :=
  ((question_type q = JsString.lit "text"
    \/ question_type q = JsString.lit "dropdown")
   /\ exists s, a = AString s /\ JsString.visible isWhiteSpace s)
  \/ (question_type q = JsString.lit "number"
      /\ ((exists n, a = ANumber (Some n))
          \/ exists s, a = AString s /\ JsString.visible isWhiteSpace s))
  \/ (question_type q = JsString.lit "document"
      /\ exists name, a = AFile name).

(** [/^[^\s@]+@[^\s@]+\.[^\s@]+$/]; [@] is code unit 64 and [.] is 46. *)
Definition emailRegex (isWhiteSpace : N -> bool) : Regex.t :=
  let part :=
    Regex.plus
      (Regex.Class (fun c => negb (isWhiteSpace c || (c =? 64)%N))) in
  Regex.Seq part
    (Regex.Seq (Regex.Class (fun c => (c =? 64)%N))
       (Regex.Seq part
          (Regex.Seq (Regex.Class (fun c => (c =? 46)%N)) part))).

(** A non-empty string with no white space and no [@] in it, and the
    shape [part@part.part] of an address. *)
Definition email_part (isWhiteSpace : N -> bool) (s : JsString.t) : Prop :=
  s <> []
  /\ forall c, In c s -> isWhiteSpace c = false /\ c <> 64%N.

Definition email_shape (isWhiteSpace : N -> bool) (s : JsString.t) : Prop :=
  exists a b c,
    s = (a ++ [64%N] ++ b ++ [46%N] ++ c)%list
    /\ email_part isWhiteSpace a
    /\ email_part isWhiteSpace b
    /\ email_part isWhiteSpace c.

(** The guards of [handleGuestBooking] before it calls [requestBooking]:
    the translation key of the error message it sets, or [None] when the
    request goes out. *)
Definition handleGuestBooking_guard (isWhiteSpace : N -> bool)
           (selectedTimeslotId : option Z)
           (selectedInfrastructure : option Z)
           (guestName guestEmail : JsString.t) : option string :=
  if negb (selected selectedTimeslotId)
     || match selectedInfrastructure with Some _ => false | None => true end
  then Some "bookTimeslot.msgErrInf&Ts"
  else if JsString.eqb (JsString.trim isWhiteSpace guestName) []
  then Some "bookTimeslot.msgErrName"
  else if JsString.eqb (JsString.trim isWhiteSpace guestEmail) []
  then Some "bookTimeslot.msgErrEmailEmpt"
  else if negb (Regex.test (emailRegex isWhiteSpace) guestEmail)
  then Some "bookTimeslot.msgErrEmailInvalid"
  else None.

(** Modelled from the spec: [BookingEntry] is declared in [@/utils],
    outside the component's file; a row is a timeslot as the client lists
    it.  [booking_date] is the time value of its [Date]. *)
Record BookingEntry : Type := mkEntry {
  entry_id : Z;
  booking_date : Z;
  start_time : string;
  end_time : string;
  status : string
}.

(** [Array.from(new Set(xs))]: the first occurrence of each value, in
    order. *)
Fixpoint unique (seen : list Z) (xs : list Z) : list Z :=
  match xs with
  | [] => []
  | x :: rest =>
      if existsb (Z.eqb x) seen then unique seen rest
      else x :: unique (x :: seen) rest
  end.

(** The memoised [availableDates], as time values; [startOfDay] is the
    function of date-fns on time values. *)
Definition availableDates (startOfDay : Z -> Z)
           (allTimeslots : list BookingEntry) : list Z :=
  if (List.length allTimeslots =? 0)%nat then []
  else unique [] (map (fun slot => startOfDay (booking_date slot))
                      allTimeslots).

(** The timeslots of the selected date, as the date effect computes them. *)
Definition dateTimeslots (startOfDay : Z -> Z) (selectedDate : option Z)
           (allTimeslots : list BookingEntry) : list BookingEntry :=
  match selectedDate with
  | Some d =>
      if (0 <? List.length allTimeslots)%nat
      then filter (fun slot =>
                     startOfDay (booking_date slot) =? startOfDay d)
                  allTimeslots
      else []
  | None => []
  end.

(** [isDateDisabled(date)]; [now] is the time value of [new Date()]. *)
Definition isDateDisabled (startOfDay : Z -> Z) (now : Z)
           (selectedInfrastructure : option Z)
           (allTimeslots : list BookingEntry)
           (isLoadingTimeslots : bool) (date : Z) : bool :=
  if match selectedInfrastructure with Some _ => false | None => true end
     || (List.length allTimeslots =? 0)%nat
  then true
  else if date <? startOfDay now then true
  else if isLoadingTimeslots then true
  else negb (existsb (fun d => d =? date)
                     (availableDates startOfDay allTimeslots)).

End BookTimeslot.

(** ** The timeslot list of [BookingManagementTabsTimeslots] *)

Module TimeslotList.

(** The calls [handleDeleteTimeslots] makes, in order. *)
Inductive Call : Type :=
| CancelTimeslots (ids : list Z)
| OnDelete (message : string)
| OnFilterStateChange (selectedTimeslots : list Z)
| OnDataChange
| ConsoleError
| OnError (message : string).

(** [ids.includes(id)] *)
Definition includes (ids : list Z) (id : Z) : bool :=
  existsb (fun x => x =? id) ids.

(** The decimal digits of an array length. *)
Definition decimal (n : nat) : string :=
  NilEmpty.string_of_uint (Nat.to_uint n).

(** [handleDeleteTimeslots(ids)] with [selectedTimeslots] the current
    selection.  [cancelTimeslots] is the API call of [@/utils]: [None] when
    it resolves, [Some e] when it throws, [e] being the message of the
    error if it is an [Error]. *)
Definition handleDeleteTimeslots
           (cancelTimeslots : list Z -> option (option string))
           (selectedTimeslots ids : list Z) : list Call :=
  if (List.length ids =? 0)%nat then []
  else
    match cancelTimeslots ids with
    | None =>
        [CancelTimeslots ids;
         OnDelete ("Successfully canceled " ++ decimal (List.length ids)
                   ++ " timeslot(s)");
         OnFilterStateChange
           (filter (fun id => negb (includes ids id)) selectedTimeslots);
         OnDataChange]
    | Some e =>
        [CancelTimeslots ids;
         ConsoleError;
         OnError (match e with
                  | Some m => m
                  | None => "An error occurred"
                  end)]
    end.

(** The selection the checkbox of a row asks for:
    [onCheckedChange(checked)]. *)
Definition onCheckedChange (selectedTimeslots : list Z) (id : Z)
           (checked : bool) : list Z :=
  if checked then (selectedTimeslots ++ [id])%list
  else filter (fun x => negb (x =? id)) selectedTimeslots.

End TimeslotList.

(** ** Concrete inputs for the form and a second store *)

Module ClientExample.

(** The white-space class of ECMAScript on code units: the characters
    WhiteSpace (tab, vertical tab, form feed, space, no-break space, the
    byte-order mark and the other space separators) and LineTerminator
    (line feed, carriage return, line and paragraph separators). *)
Definition isWhiteSpace (c : N) : bool :=
  existsb (N.eqb c)
          [9; 10; 11; 12; 13; 32; 160; 5760;
           8192; 8193; 8194; 8195; 8196; 8197; 8198; 8199; 8200; 8201; 8202;
           8232; 8233; 8239; 8287; 12288; 65279]%N.

(** Midnight of the day of a time value, in UTC. *)
Definition startOfDay (t : Z) : Z := 86400000 * (t / 86400000).

Definition slots : list BookTimeslot.BookingEntry :=
  [BookTimeslot.mkEntry 1 1740823200000 "10:00" "11:00" "available";
   BookTimeslot.mkEntry 2 1740826800000 "11:00" "12:00" "available";
   BookTimeslot.mkEntry 3 1740909600000 "10:00" "11:00" "available"].

(** Two valid tokens, one per action, for the same pending booking. *)
Definition T5 : Token.row :=
  Token.mk 5 "T5" 42 "reject" 0 None 1000.

Definition store : Database :=
  mkDatabase [Example.T1; T5] [Example.B42] [Example.Lab].

Definition world : World := mkWorld store None 0 [] None.

End ClientExample.

(** ** The route *)

Section Route.

(** What the handler cannot see from its own file is taken as given:
    [clock n] is the value of [NOW()] in the [n]-th store call;
    [store_fails n] tells whether the [n]-th store call throws;
    [AdminRejectOrCancelBooking] is the stored procedure invoked by
    [CALL AdminRejectOrCancelBooking(?, ?)], giving the new store or the
    error it signals; [sendBookingStatusUpdate] is the method of
    [emailService], giving [None] when the awaited call resolves and
    [Some e] when it throws [e]. *)
Variable clock : nat -> Z.
Variable store_fails : nat -> bool.
Variable AdminRejectOrCancelBooking :
  Z -> string -> Database -> Database + Error.
Variable sendBookingStatusUpdate :
  Booking.row -> Infrastructure.row -> string -> option Error.

(** An awaited call on the pool or on the connection.  The call is
    counted; it throws when the store fails at this step or when the
    operation itself signals an error; its event is recorded once it has
    resolved. *)
Definition store_call {A} (ev : Event)
           (op : Z -> Database -> option Database ->
                 (A * Database * option Database) + Error) : M A :=
  fun w =>
    let n := steps w in
    if store_fails n
    then (Thrown "store failure",
          mkWorld (db w) (tx w) (S n) (trace w) (res w))
    else
      match op (clock n) (db w) (tx w) with
      | inl (a, d, t) =>
          (Normal a, mkWorld d t (S n) (trace w ++ [ev]) (res w))
      | inr e =>
          (Thrown e, mkWorld (db w) (tx w) (S n) (trace w) (res w))
      end.

(** [pool.getConnection()] *)
Definition getConnection : M unit :=
  store_call GetConnection (fun _ d t => inl (tt, d, t)).

(** [connection.beginTransaction()].  Starting a transaction makes the
    connection's current view the state a rollback returns to. *)
Definition beginTransaction : M unit :=
  store_call BeginTransaction (fun _ d _ => inl (tt, d, Some d)).

(** [connection.commit()] *)
Definition commit : M unit :=
  store_call Commit (fun _ d _ => inl (tt, d, None)).

(** [connection.rollback()] *)
Definition rollback : M unit :=
  store_call Rollback
    (fun _ d t => inl (tt, match t with Some d0 => d0 | None => d end, None)).

(** [connection.release()] *)
Definition release : M unit := emit Release.

(** [connection.execute(sql, params)], one definition per statement. *)
Definition execute_select_token (tok : string) : M (list Token.row) :=
  store_call (Execute (SelectToken tok))
    (fun now d t => inl (Sql.select_valid_tokens tok now d, d, t)).

Definition execute_select_booking (bid : Z) : M (list Booking.row) :=
  store_call (Execute (SelectBooking bid))
    (fun _ d t => inl (Sql.select_bookings bid d, d, t)).

Definition execute_update_token_used (tid : Z) : M unit :=
  store_call (Execute (UpdateTokenUsed tid))
    (fun now d t => inl (tt, Sql.update_token_used tid now d, t)).

Definition execute_update_booking_approved (bid : Z) : M unit :=
  store_call (Execute (UpdateBookingApproved bid))
    (fun _ d t => inl (tt, Sql.update_booking_approved bid d, t)).

Definition execute_call_AdminRejectOrCancelBooking
           (bid : Z) (new_status : string) : M unit :=
  store_call (Execute (CallAdminRejectOrCancelBooking bid new_status))
    (fun _ d t =>
       match AdminRejectOrCancelBooking bid new_status d with
       | inl d' => inl (tt, d', t)
       | inr e => inr e
       end).

Definition execute_select_infrastructure (iid : Z)
  : M (list Infrastructure.row) :=
  store_call (Execute (SelectInfrastructure iid))
    (fun _ d t => inl (Sql.select_infrastructures iid d, d, t)).

(** [await emailService.sendBookingStatusUpdate(booking, infra, outcome)].
    The event is recorded when the dispatcher is invoked, whether the
    awaited call then resolves or throws. *)
Definition await_sendBookingStatusUpdate
           (b : Booking.row) (i : Infrastructure.row) (outcome : string)
  : M unit :=
  emit (SendBookingStatusUpdate b i outcome) ;;
  match sendBookingStatusUpdate b i outcome with
  | None => ret tt
  | Some e => throw e
  end.

Definition invalid_action_response : Response.t :=
  Response.mk 400 false "Invalid action" None None.

Definition invalid_token_response : Response.t :=
  Response.mk 400 false "Invalid or expired email-action token" None None.

Definition booking_not_found_response : Response.t :=
  Response.mk 404 false "Booking not found" None None.

Definition already_processed_response (current : string) : Response.t :=
  Response.mk 400 false
    ("This booking has already been processed. Its current status is: "
     ++ current)
    (Some current) None.

Definition outcome_of (action : string) : string :=
  if (action =? "approve")%string then "approved" else "rejected".

Definition success_response (action : string) : Response.t :=
  Response.mk 200 true
    ("Booking " ++ outcome_of action ++ " successfully") None (Some action).

Definition error_response : Response.t :=
  Response.mk 500 false "Error processing the action" None None.

(** [router.get('/:action/:token', async (req, res) => { ... })] *)
Definition router_get (action token : string) : M unit :=
  if negb (action =? "approve")%string && negb (action =? "reject")%string
  then
    respond invalid_action_response ;;
    return_
  else
    getConnection ;;
    try_catch_finally
      (beginTransaction ;;
       tokens <- execute_select_token token ;;
       match tokens with
       | [] =>
           respond invalid_token_response ;;
           return_
       | tokenRecord :: _ =>
           bookings <- execute_select_booking (Token.booking_id tokenRecord) ;;
           match bookings with
           | [] =>
               respond booking_not_found_response ;;
               return_
           | booking :: _ =>
               if negb (Booking.status booking =? "pending")%string
               then
                 execute_update_token_used (Token.id tokenRecord) ;;
                 commit ;;
                 respond (already_processed_response (Booking.status booking)) ;;
                 return_
               else
                 (if (action =? "approve")%string
                  then execute_update_booking_approved (Booking.id booking)
                  else if (action =? "reject")%string
                  then execute_call_AdminRejectOrCancelBooking
                         (Booking.id booking) "rejected"
                  else ret tt) ;;
                 execute_update_token_used (Token.id tokenRecord) ;;
                 infrastructures <-
                   execute_select_infrastructure
                     (Booking.infrastructure_id booking) ;;
                 match infrastructures with
                 | infrastructure :: _ =>
                     await_sendBookingStatusUpdate
                       booking infrastructure (outcome_of action)
                 | [] => ret tt
                 end ;;
                 commit ;;
                 respond (success_response action)
           end
       end)
      (fun error =>
         rollback ;;
         emit ConsoleError ;;
         respond error_response)
      release.

(** One request against the store: a fresh response object and an empty
    record of events, then the handler. *)
Definition new_request (w : World) : World :=
  mkWorld (db w) (tx w) (steps w) [] None.

Definition request (action token : string) (w : World) : World :=
  snd (router_get action token (new_request w)).

(** ** Vocabulary of the properties *)

Definition recognised (action : string) : Prop :=
  action = "approve" \/ action = "reject".

(** No store call throws. *)
Definition store_reliable : Prop := forall n, store_fails n = false.

(** The statement the handler issues for [action] on a pending booking,
    and its effect on the store. *)
Definition action_statement (action : string) (bid : Z) : Statement :=
  if (action =? "approve")%string
  then UpdateBookingApproved bid
  else CallAdminRejectOrCancelBooking bid "rejected".

Definition apply_action (action : string) (bid : Z) (d : Database)
  : Database + Error :=
  if (action =? "approve")%string
  then inl (Sql.update_booking_approved bid d)
  else AdminRejectOrCancelBooking bid "rejected" d.

(** The store once the token [t] has been marked used, [d1] being the
    store left by the action statement. *)
Definition consumed (w : World) (t : Token.row) (d1 : Database) : Database :=
  Sql.update_token_used (Token.id t) (clock (5 + steps w)) d1.

(** The events of a request on a pending booking, up to and including the
    infrastructure lookup. *)
Definition prefix (action token : string) (t : Token.row) (b : Booking.row)
  : list Event :=
  [GetConnection; BeginTransaction;
   Execute (SelectToken token);
   Execute (SelectBooking (Token.booking_id t));
   Execute (action_statement action (Booking.id b));
   Execute (UpdateTokenUsed (Token.id t));
   Execute (SelectInfrastructure (Booking.infrastructure_id b))].

(** The dispatcher call of a request whose infrastructure lookup ran on
    store [d], and whether that call resolves. *)
Definition notification (action : string) (b : Booking.row) (d : Database)
  : list Event :=
  match Sql.select_infrastructures (Booking.infrastructure_id b) d with
  | [] => []
  | i :: _ => [SendBookingStatusUpdate b i (outcome_of action)]
  end.

Definition dispatcher_resolves (action : string) (b : Booking.row)
           (d : Database) : Prop :=
  match Sql.select_infrastructures (Booking.infrastructure_id b) d with
  | [] => True
  | i :: _ => sendBookingStatusUpdate b i (outcome_of action) = None
  end.


(** Token values are unique in the token table. *)
Definition token_values_unique (d : Database) : Prop :=
  NoDup (map Token.token (email_action_tokens d)).

(** ** Vocabulary for properties of every path *)

Definition is_get_connection (e : Event) : bool :=
  match e with GetConnection => true | _ => false end.

Definition is_release (e : Event) : bool :=
  match e with Release => true | _ => false end.

Definition is_commit (e : Event) : bool :=
  match e with Commit => true | _ => false end.

Definition is_rollback (e : Event) : bool :=
  match e with Rollback => true | _ => false end.

(** The responses sent during a trace, oldest first. *)
Definition responses (tr : list Event) : list Response.t :=
  flat_map (fun e => match e with Respond r => [r] | _ => [] end) tr.

(** How the promise of the handler settles for one request. *)
Definition completion (action token : string) (w : World) : Completion unit :=
  fst (router_get action token (new_request w)).

(** The committed store: while a transaction is open, the state a
    rollback returns to; otherwise the store itself. *)
Definition committed_store (w : World) : Database :=
  match tx w with
  | Some d0 => d0
  | None => db w
  end.

(** What a request may do to a token row: nothing, or mark it used. *)
Definition token_row_evolves (r r' : Token.row) : Prop :=
  r' = r \/ exists now, r' = Token.set_used now r.

(** ** The paths of the handler *)

Ltac unfold_route :=
  unfold router_get, try_catch_finally, getConnection, beginTransaction,
    commit, rollback, release, execute_select_token, execute_select_booking,
    execute_update_token_used, execute_update_booking_approved,
    execute_call_AdminRejectOrCancelBooking, execute_select_infrastructure,
    await_sendBookingStatusUpdate, store_call, bind, respond, emit, return_,
    ret, throw.

Lemma path_invalid_action action token w :
  ~ recognised action ->
  router_get action token w =
  (Returned,
   mkWorld (db w) (tx w) (steps w)
           (trace w ++ [Respond invalid_action_response])
           (Some invalid_action_response)).
Proof.
  intros Hact. unfold router_get.
  destruct (action =? "approve")%string eqn:Ea.
  - apply String.eqb_eq in Ea. exfalso. apply Hact. now left.
  - destruct (action =? "reject")%string eqn:Er.
    + apply String.eqb_eq in Er. exfalso. apply Hact. now right.
    + reflexivity.
Qed.

Lemma path_invalid_token action token w :
  recognised action -> store_reliable ->
  Sql.select_valid_tokens token (clock (2 + steps w)) (db w) = [] ->
  router_get action token w =
  (Returned,
   mkWorld (db w) (Some (db w)) (3 + steps w)
           (trace w ++ [GetConnection; BeginTransaction;
                        Execute (SelectToken token);
                        Respond invalid_token_response; Release])
           (Some invalid_token_response)).
Proof.
  intros [-> | ->] Hrel Htok; cbn in Htok; unfold_route; cbn;
    repeat (rewrite Hrel; cbn); rewrite Htok; cbn;
    rewrite <- !app_assoc; reflexivity.
Qed.

Lemma path_booking_not_found action token w t ts :
  recognised action -> store_reliable ->
  Sql.select_valid_tokens token (clock (2 + steps w)) (db w) = t :: ts ->
  Sql.select_bookings (Token.booking_id t) (db w) = [] ->
  router_get action token w =
  (Returned,
   mkWorld (db w) (Some (db w)) (4 + steps w)
           (trace w ++ [GetConnection; BeginTransaction;
                        Execute (SelectToken token);
                        Execute (SelectBooking (Token.booking_id t));
                        Respond booking_not_found_response; Release])
           (Some booking_not_found_response)).
Proof.
  intros [-> | ->] Hrel Htok Hbook; cbn in Htok; unfold_route; cbn;
    repeat (rewrite Hrel; cbn); rewrite Htok; cbn;
    repeat (rewrite Hrel; cbn); rewrite Hbook; cbn;
    rewrite <- !app_assoc; reflexivity.
Qed.

Lemma path_already_processed action token w t ts b bs :
  recognised action -> store_reliable ->
  Sql.select_valid_tokens token (clock (2 + steps w)) (db w) = t :: ts ->
  Sql.select_bookings (Token.booking_id t) (db w) = b :: bs ->
  Booking.status b <> "pending" ->
  router_get action token w =
  (Returned,
   mkWorld (Sql.update_token_used (Token.id t) (clock (4 + steps w)) (db w))
           None (6 + steps w)
           (trace w ++ [GetConnection; BeginTransaction;
                        Execute (SelectToken token);
                        Execute (SelectBooking (Token.booking_id t));
                        Execute (UpdateTokenUsed (Token.id t));
                        Commit;
                        Respond (already_processed_response (Booking.status b));
                        Release])
           (Some (already_processed_response (Booking.status b)))).
Proof.
  intros Hact Hrel Htok Hbook Hst. apply String.eqb_neq in Hst.
  destruct Hact as [-> | ->]; cbn in Htok; unfold_route; cbn;
    repeat (rewrite Hrel; cbn); rewrite Htok; cbn;
    repeat (rewrite Hrel; cbn); rewrite Hbook; cbn;
    rewrite Hst; cbn; repeat (rewrite Hrel; cbn);
    rewrite <- !app_assoc; reflexivity.
Qed.

Section PendingBooking.

(** A request that finds a valid token and its booking in [pending], and
    whose action statement succeeds with store [d1]. *)
Variables (action token : string) (w : World).
Variables (t : Token.row) (ts : list Token.row).
Variables (b : Booking.row) (bs : list Booking.row).
Variable d1 : Database.
Hypothesis Hact : recognised action.
Hypothesis Hrel : store_reliable.
Hypothesis Htok :
  Sql.select_valid_tokens token (clock (2 + steps w)) (db w) = t :: ts.
Hypothesis Hbook :
  Sql.select_bookings (Token.booking_id t) (db w) = b :: bs.
Hypothesis Hst : Booking.status b = "pending".
Hypothesis Hdo : apply_action action (Booking.id b) (db w) = inl d1.

Ltac run_pending :=
  let Ha := fresh "Ha" in
  let Hd := fresh "Hd" in
  pose proof Hdo as Hd; pose proof Htok as Ht; cbn in Ht;
  unfold consumed, prefix, action_statement, apply_action in *;
  destruct Hact as [Ha | Ha]; rewrite Ha in *; cbn in Hd;
  [ injection Hd as Hd | ];
  unfold_route; cbn;
  repeat (rewrite Hrel; cbn); rewrite Ht; cbn;
  repeat (rewrite Hrel; cbn); rewrite Hbook; cbn;
  rewrite Hst; cbn; repeat (rewrite Hrel; cbn);
  rewrite Hd; cbn; repeat (rewrite Hrel; cbn).

Lemma path_no_infrastructure :
  Sql.select_infrastructures (Booking.infrastructure_id b) (consumed w t d1) = [] ->
  router_get action token w =
  (Normal tt,
   mkWorld (consumed w t d1) None (8 + steps w)
           (trace w ++ prefix action token t b
                   ++ [Commit; Respond (success_response action); Release])
           (Some (success_response action))).
Proof.
  intros Hinf; run_pending; cbn in Hinf;
    rewrite Hinf; cbn; repeat (rewrite Hrel; cbn);
    rewrite <- !app_assoc; reflexivity.
Qed.

Lemma path_notified i is_ :
  Sql.select_infrastructures (Booking.infrastructure_id b) (consumed w t d1)
  = i :: is_ ->
  sendBookingStatusUpdate b i (outcome_of action) = None ->
  router_get action token w =
  (Normal tt,
   mkWorld (consumed w t d1) None (8 + steps w)
           (trace w ++ prefix action token t b
                   ++ [SendBookingStatusUpdate b i (outcome_of action);
                       Commit; Respond (success_response action); Release])
           (Some (success_response action))).
Proof.
  intros Hinf Hsend; run_pending; cbn in Hinf, Hsend;
    rewrite Hinf; cbn; rewrite Hsend; cbn; repeat (rewrite Hrel; cbn);
    rewrite <- !app_assoc; reflexivity.
Qed.

Lemma path_send_throws i is_ e :
  Sql.select_infrastructures (Booking.infrastructure_id b) (consumed w t d1)
  = i :: is_ ->
  sendBookingStatusUpdate b i (outcome_of action) = Some e ->
  router_get action token w =
  (Normal tt,
   mkWorld (db w) None (8 + steps w)
           (trace w ++ prefix action token t b
                   ++ [SendBookingStatusUpdate b i (outcome_of action);
                       Rollback; ConsoleError; Respond error_response;
                       Release])
           (Some error_response)).
Proof.
  intros Hinf Hsend; run_pending; cbn in Hinf, Hsend;
    rewrite Hinf; cbn; rewrite Hsend; cbn; repeat (rewrite Hrel; cbn);
    rewrite <- !app_assoc; reflexivity.
Qed.

End PendingBooking.

Lemma path_action_throws action token w t ts b bs e :
  recognised action -> store_reliable ->
  Sql.select_valid_tokens token (clock (2 + steps w)) (db w) = t :: ts ->
  Sql.select_bookings (Token.booking_id t) (db w) = b :: bs ->
  Booking.status b = "pending" ->
  apply_action action (Booking.id b) (db w) = inr e ->
  router_get action token w =
  (Normal tt,
   mkWorld (db w) None (6 + steps w)
           (trace w ++ [GetConnection; BeginTransaction;
                        Execute (SelectToken token);
                        Execute (SelectBooking (Token.booking_id t));
                        Rollback; ConsoleError; Respond error_response;
                        Release])
           (Some error_response)).
Proof.
  intros [-> | ->] Hrel Htok Hbook Hst Hdo; cbn in Htok, Hdo;
    [ discriminate | ];
    unfold_route; cbn;
    repeat (rewrite Hrel; cbn); rewrite Htok; cbn;
    repeat (rewrite Hrel; cbn); rewrite Hbook; cbn;
    rewrite Hst; cbn; repeat (rewrite Hrel; cbn);
    rewrite Hdo; cbn; repeat (rewrite Hrel; cbn);
    rewrite <- !app_assoc; reflexivity.
Qed.

(** A request is the handler run on a fresh response object. *)
Lemma request_run action token w c w' :
  router_get action token (new_request w) = (c, w') ->
  request action token w = w'.
Proof. unfold request. now intros ->. Qed.

(** The committing path, with or without a dispatcher call. *)
Lemma path_committed action token w t ts b bs d1 :
  recognised action -> store_reliable ->
  Sql.select_valid_tokens token (clock (2 + steps w)) (db w) = t :: ts ->
  Sql.select_bookings (Token.booking_id t) (db w) = b :: bs ->
  Booking.status b = "pending" ->
  apply_action action (Booking.id b) (db w) = inl d1 ->
  dispatcher_resolves action b (consumed w t d1) ->
  request action token w =
  mkWorld (consumed w t d1) None (8 + steps w)
          (prefix action token t b
             ++ notification action b (consumed w t d1)
             ++ [Commit; Respond (success_response action); Release])%list
          (Some (success_response action)).
Proof.
  intros Hact Hrel Htok Hbook Hst Hdo Hres.
  unfold dispatcher_resolves, notification in *.
  destruct (Sql.select_infrastructures _ (consumed w t d1)) as [| i is_] eqn:Hinf.
  - apply request_run with (c := Normal tt).
    now rewrite (path_no_infrastructure action token (new_request w)
                   t ts b bs d1 Hact Hrel Htok Hbook Hst Hdo Hinf).
  - apply request_run with (c := Normal tt).
    now rewrite (path_notified action token (new_request w)
                   t ts b bs d1 Hact Hrel Htok Hbook Hst Hdo i is_ Hinf Hres).
Qed.

(** ** Facts about the statements *)

Lemma token_is_valid_iff tok now r :
  Sql.token_is_valid tok now r = true <->
  Token.token r = tok /\ Token.used r = 0 /\ now < Token.expires r.
Proof.
  unfold Sql.token_is_valid.
  rewrite !andb_true_iff, String.eqb_eq, Z.eqb_eq, Z.ltb_lt. tauto.
Qed.

Lemma filter_nil_iff {A} (f : A -> bool) (l : list A) :
  filter f l = [] <-> forall x, In x l -> f x = false.
Proof.
  induction l as [| a l IH]; cbn.
  - split; [intros _ x [] | reflexivity].
  - destruct (f a) eqn:Efa.
    + split; [discriminate |].
      intros H. rewrite (H a) in Efa by now left. discriminate.
    + rewrite IH. split.
      * intros H x [<- | Hx]; auto.
      * intros H x Hx. apply H. now right.
Qed.

Lemma select_valid_tokens_head tok now d t ts :
  Sql.select_valid_tokens tok now d = t :: ts ->
  In t (email_action_tokens d) /\ Sql.token_is_valid tok now t = true.
Proof.
  intros H. apply filter_In. unfold Sql.select_valid_tokens in H.
  rewrite H. now left.
Qed.

Lemma select_bookings_head bid d b bs :
  Sql.select_bookings bid d = b :: bs ->
  In b (bookings d) /\ Booking.id b = bid.
Proof.
  intros H. rewrite <- Z.eqb_eq.
  apply (filter_In (fun b => Booking.id b =? bid)).
  unfold Sql.select_bookings in H. rewrite H. now left.
Qed.

Lemma update_token_used_marks tid now d r :
  In r (email_action_tokens d) -> Token.id r = tid ->
  In (Token.set_used now r)
     (email_action_tokens (Sql.update_token_used tid now d)).
Proof.
  intros Hin Hid. unfold Sql.update_token_used. cbn.
  apply in_map_iff. exists r. split; [| assumption].
  apply Z.eqb_eq in Hid. now rewrite Hid.
Qed.

Lemma update_token_used_only_used tid now d r :
  In r (email_action_tokens (Sql.update_token_used tid now d)) ->
  Token.id r = tid -> Token.used r = 1.
Proof.
  unfold Sql.update_token_used. cbn. intros Hin Hid.
  apply in_map_iff in Hin. destruct Hin as (r0 & Hr & _).
  destruct (Token.id r0 =? tid) eqn:E.
  - now subst r.
  - subst r. apply Z.eqb_neq in E. contradiction.
Qed.

Lemma update_booking_approved_marks bid d b :
  In b (bookings d) -> Booking.id b = bid ->
  In (Booking.set_status "approved" b)
     (bookings (Sql.update_booking_approved bid d)).
Proof.
  intros Hin Hid. unfold Sql.update_booking_approved. cbn.
  apply in_map_iff. exists b. split; [| assumption].
  apply Z.eqb_eq in Hid. now rewrite Hid.
Qed.

Lemma map_injective_on_nodup {A B} (f : A -> B) (l : list A) x y :
  NoDup (map f l) -> In x l -> In y l -> f x = f y -> x = y.
Proof.
  induction l as [| a l IH]; cbn; [intros _ [] |].
  intros Hnd Hx Hy Hxy. inversion Hnd as [| ? ? Hnotin Hnd']; subst.
  destruct Hx as [<- | Hx], Hy as [<- | Hy].
  - reflexivity.
  - exfalso. apply Hnotin. rewrite Hxy. now apply in_map.
  - exfalso. apply Hnotin. rewrite <- Hxy. now apply in_map.
  - now apply IH.
Qed.

Lemma update_booking_approved_has_status bid d b :
  In b (bookings d) -> Booking.id b = bid ->
  booking_has_status bid "approved" (Sql.update_booking_approved bid d).
Proof.
  intros Hin Hid. unfold booking_has_status, Sql.update_booking_approved.
  cbn [bookings]. split.
  - exists (Booking.set_status "approved" b). split; [| now split].
    apply in_map_iff. exists b. split; [| assumption].
    apply Z.eqb_eq in Hid. now rewrite Hid.
  - intros x Hx Hxid. apply in_map_iff in Hx. destruct Hx as (x0 & Hx & _).
    destruct (Booking.id x0 =? bid) eqn:E.
    + now subst x.
    + subst x. apply Z.eqb_neq in E. contradiction.
Qed.

Lemma booking_has_status_same_bookings bid st d d' :
  bookings d' = bookings d ->
  booking_has_status bid st d -> booking_has_status bid st d'.
Proof. unfold booking_has_status. now intros ->. Qed.

Lemma update_token_used_consumed tid now d r :
  In r (email_action_tokens d) -> Token.id r = tid ->
  token_consumed tid (Sql.update_token_used tid now d).
Proof.
  intros Hin Hid. split.
  - exists (Token.set_used now r). split; [| now split].
    now apply update_token_used_marks.
  - intros r' Hr' Hid'. eapply update_token_used_only_used; eassumption.
Qed.

(** ** Properties of the handler *)

(** C9: a request whose action segment is neither [approve] nor [reject]
    is answered 400 "Invalid action" with a false success flag, and the
    store is never touched: no store call is issued, the only event is the
    response, and store and transaction state are as before. *)
Theorem invalid_action_rejected_without_store action token w :
  ~ recognised action ->
  let w' := request action token w in
  res w' = Some invalid_action_response
  /\ Response.status invalid_action_response = 400
  /\ Response.success invalid_action_response = false
  /\ trace w' = [Respond invalid_action_response]
  /\ steps w' = steps w
  /\ db w' = db w
  /\ tx w' = tx w.
Proof.
  intros Hact w'. subst w'. unfold request.
  rewrite path_invalid_action by assumption. cbn. tauto.
Qed.


(** C10: on the success path, when the infrastructure lookup finds no row,
    the transition and the token consumption are committed and the answer
    is the 200 success response, but the dispatcher is not invoked.  For
    [approve] the booking is in status [approved] and the token is
    consumed in the committed store; for [reject] the committed store is
    the one the stored procedure returned for the booking and [rejected],
    with the token marked used, so that the booking is [rejected] when the
    procedure keeps its contract. *)
Theorem missing_infrastructure_commits_silently action token w t ts b bs d1 :
  recognised action -> store_reliable ->
  Sql.select_valid_tokens token (clock (2 + steps w)) (db w) = t :: ts ->
  Sql.select_bookings (Token.booking_id t) (db w) = b :: bs ->
  Booking.status b = "pending" ->
  apply_action action (Booking.id b) (db w) = inl d1 ->
  Sql.select_infrastructures (Booking.infrastructure_id b) d1 = [] ->
  let w' := request action token w in
  res w' = Some (success_response action)
  /\ Response.status (success_response action) = 200
  /\ Response.success (success_response action) = true
  /\ db w' = consumed w t d1
  /\ bookings (db w') = bookings d1
  /\ (forall r, In r (email_action_tokens (db w')) ->
                Token.id r = Token.id t -> Token.used r = 1)
  /\ tx w' = None
  /\ trace w' = (prefix action token t b
                  ++ [Commit; Respond (success_response action); Release])%list
  /\ existsb is_send (trace w') = false
  /\ (action = "approve" ->
      booking_has_status (Booking.id b) "approved" (db w')
      /\ token_consumed (Token.id t) (db w'))
  /\ (action = "reject" ->
      AdminRejectOrCancelBooking (Booking.id b) "rejected" (db w) = inl d1
      /\ (SpecModel.releases_timeslot AdminRejectOrCancelBooking ->
          booking_has_status (Booking.id b) "rejected" (db w'))
      /\ (SpecModel.preserves_tokens AdminRejectOrCancelBooking ->
          token_consumed (Token.id t) (db w'))).
Proof.
  intros Hact Hrel Htok Hbook Hst Hdo Hinf w'. subst w'.
  assert (Hinf' : Sql.select_infrastructures (Booking.infrastructure_id b)
                    (consumed w t d1) = []) by exact Hinf.
  rewrite (path_committed action token w t ts b bs d1) by
    (try assumption; unfold dispatcher_resolves; now rewrite Hinf').
  unfold notification. rewrite Hinf'.
  cbn [res db tx trace app].
  destruct (select_bookings_head _ _ _ _ Hbook) as [Hinb _].
  destruct (select_valid_tokens_head _ _ _ _ _ Htok) as [Hint _].
  split; [reflexivity |]. split; [reflexivity |]. split; [reflexivity |].
  split; [reflexivity |]. split; [reflexivity |].
  split; [intros r Hr Hid; eapply update_token_used_only_used; eassumption |].
  split; [reflexivity |]. split; [reflexivity |]. split; [reflexivity |].
  split.
  - intros ->. cbn in Hdo. injection Hdo as <-. split.
    + apply (booking_has_status_same_bookings _ _
               (Sql.update_booking_approved (Booking.id b) (db w)));
        [reflexivity |].
      now apply (update_booking_approved_has_status _ _ b).
    + unfold consumed. now apply (update_token_used_consumed _ _ _ t).
  - intros ->. cbn in Hdo. split; [exact Hdo |]. split.
    + intros Hcontract.
      destruct (Hcontract _ _ _ _ b Hdo Hinb eq_refl) as (Hst' & _).
      exact (booking_has_status_same_bookings _ _ d1 _ eq_refl Hst').
    + intros Hpres. unfold consumed.
      apply (update_token_used_consumed _ _ _ t); [| reflexivity].
      now rewrite (Hpres _ _ _ _ Hdo).
Qed.

(** C1, as the handler has it: on the success path with an infrastructure
    row, the dispatcher is invoked exactly once and inside the open
    transaction, after the action statement, the token update and the
    infrastructure lookup and before [connection.commit()]; the commit is
    issued only once the dispatcher call has resolved, and a dispatcher call
    that throws is followed by a rollback instead of a commit. *)
Theorem notification_precedes_commit action token w t ts b bs d1 i is_ :
  recognised action -> store_reliable ->
  Sql.select_valid_tokens token (clock (2 + steps w)) (db w) = t :: ts ->
  Sql.select_bookings (Token.booking_id t) (db w) = b :: bs ->
  Booking.status b = "pending" ->
  apply_action action (Booking.id b) (db w) = inl d1 ->
  Sql.select_infrastructures (Booking.infrastructure_id b) d1 = i :: is_ ->
  let w' := request action token w in
  trace w' =
    (prefix action token t b
     ++ SendBookingStatusUpdate b i (outcome_of action)
     :: match sendBookingStatusUpdate b i (outcome_of action) with
        | None => [Commit; Respond (success_response action); Release]
        | Some _ => [Rollback; ConsoleError; Respond error_response; Release]
        end)%list
  /\ existsb is_send (prefix action token t b) = false
  /\ ~ In Commit (prefix action token t b)
  /\ notified_only_after_commit (trace w') = false.
Proof.
  intros Hact Hrel Htok Hbook Hst Hdo Hinf w'.
  assert (Hinf' : Sql.select_infrastructures (Booking.infrastructure_id b)
                    (consumed w t d1) = i :: is_) by exact Hinf.
  assert (Htr : trace w' =
    (prefix action token t b
     ++ SendBookingStatusUpdate b i (outcome_of action)
     :: match sendBookingStatusUpdate b i (outcome_of action) with
        | None => [Commit; Respond (success_response action); Release]
        | Some _ => [Rollback; ConsoleError; Respond error_response; Release]
        end)%list).
  { subst w'. unfold request.
    destruct (sendBookingStatusUpdate b i (outcome_of action)) as [e |] eqn:Hs.
    - now rewrite (path_send_throws action token (new_request w)
                     t ts b bs d1 Hact Hrel Htok Hbook Hst Hdo i is_ e Hinf' Hs).
    - now rewrite (path_notified action token (new_request w)
                     t ts b bs d1 Hact Hrel Htok Hbook Hst Hdo i is_ Hinf' Hs). }
  split; [exact Htr |]. split; [reflexivity |]. split.
  - cbn. intros H. repeat (destruct H as [H | H]; [discriminate |]). exact H.
  - rewrite Htr. cbn.
    now destruct (sendBookingStatusUpdate b i (outcome_of action)).
Qed.

(** C4, as the handler has it: a dispatcher call that throws is caught by
    the handler's [catch]: the transaction, not yet committed, is rolled
    back, so the store is as it was before the request (booking still
    [pending], token not marked used), no commit is issued, the error is
    logged and the answer is the 500 error response. *)
Theorem dispatcher_failure_rolls_back action token w t ts b bs d1 i is_ e :
  recognised action -> store_reliable ->
  Sql.select_valid_tokens token (clock (2 + steps w)) (db w) = t :: ts ->
  Sql.select_bookings (Token.booking_id t) (db w) = b :: bs ->
  Booking.status b = "pending" ->
  apply_action action (Booking.id b) (db w) = inl d1 ->
  Sql.select_infrastructures (Booking.infrastructure_id b) d1 = i :: is_ ->
  sendBookingStatusUpdate b i (outcome_of action) = Some e ->
  let w' := request action token w in
  res w' = Some error_response
  /\ Response.status error_response = 500
  /\ db w' = db w
  /\ tx w' = None
  /\ trace w' =
       (prefix action token t b
        ++ [SendBookingStatusUpdate b i (outcome_of action);
            Rollback; ConsoleError; Respond error_response; Release])%list
  /\ ~ In Commit (trace w').
Proof.
  intros Hact Hrel Htok Hbook Hst Hdo Hinf Hs w'. subst w'. unfold request.
  assert (Hinf' : Sql.select_infrastructures (Booking.infrastructure_id b)
                    (consumed w t d1) = i :: is_) by exact Hinf.
  rewrite (path_send_throws action token (new_request w)
             t ts b bs d1 Hact Hrel Htok Hbook Hst Hdo i is_ e Hinf' Hs).
  cbn [snd res db tx trace new_request app].
  repeat split.
  cbn. intros H. repeat (destruct H as [H | H]; [discriminate |]). exact H.
Qed.

(** The 404 path in general: the answer is BookingNotFound and no row is
    changed, but the handler leaves through [return;] with neither a commit
    nor a rollback, so the transaction is still open when the connection is
    released. *)
Lemma booking_not_found_path action token w t ts :
  recognised action -> store_reliable ->
  Sql.select_valid_tokens token (clock (2 + steps w)) (db w) = t :: ts ->
  Sql.select_bookings (Token.booking_id t) (db w) = [] ->
  let w' := request action token w in
  res w' = Some booking_not_found_response
  /\ Response.status booking_not_found_response = 404
  /\ db w' = db w
  /\ tx w' = Some (db w)
  /\ trace w' = [GetConnection; BeginTransaction;
                 Execute (SelectToken token);
                 Execute (SelectBooking (Token.booking_id t));
                 Respond booking_not_found_response; Release].
Proof.
  intros Hact Hrel Htok Hbook w'. subst w'. unfold request.
  rewrite (path_booking_not_found action token (new_request w) t ts)
    by assumption.
  cbn. tauto.
Qed.

Lemma recognised_dec action : {recognised action} + {~ recognised action}.
Proof.
  unfold recognised.
  destruct (string_dec action "approve"); [left; now left |].
  destruct (string_dec action "reject"); [left; now right |].
  right. intros [H | H]; contradiction.
Qed.

(** The answers a request can give once its token has been found valid:
    none of them is the invalid-token answer, and the success answer is
    given only on the committing path. *)
Lemma valid_token_answers action token w t ts :
  recognised action -> store_reliable ->
  Sql.select_valid_tokens token (clock (2 + steps w)) (db w) = t :: ts ->
  let w' := request action token w in
  res w' <> Some invalid_token_response
  /\ (res w' = Some (success_response action) ->
      exists b bs d1,
        Sql.select_bookings (Token.booking_id t) (db w) = b :: bs
        /\ Booking.status b = "pending"
        /\ apply_action action (Booking.id b) (db w) = inl d1
        /\ dispatcher_resolves action b (consumed w t d1)
        /\ db w' = consumed w t d1
        /\ steps w' = (8 + steps w)%nat).
Proof.
  intros Hact Hrel Htok w'. subst w'.
  destruct (Sql.select_bookings (Token.booking_id t) (db w))
    as [| b bs] eqn:Hbook.
  { unfold request.
    rewrite (path_booking_not_found action token (new_request w) t ts)
      by assumption.
    cbn. split; [discriminate | destruct Hact as [-> | ->]; discriminate]. }
  destruct (string_dec (Booking.status b) "pending") as [Hst | Hst].
  2:{ unfold request.
      rewrite (path_already_processed action token (new_request w) t ts b bs)
        by assumption.
      cbn. split; [discriminate | destruct Hact as [-> | ->]; discriminate]. }
  destruct (apply_action action (Booking.id b) (db w)) as [d1 | e] eqn:Hdo.
  2:{ unfold request.
      rewrite (path_action_throws action token (new_request w) t ts b bs e)
        by assumption.
      cbn. split; [discriminate | destruct Hact as [-> | ->]; discriminate]. }
  destruct (Sql.select_infrastructures (Booking.infrastructure_id b)
              (consumed w t d1)) as [| i is_] eqn:Hinf.
  { assert (Hres : dispatcher_resolves action b (consumed w t d1))
      by (unfold dispatcher_resolves; now rewrite Hinf).
    rewrite (path_committed action token w t ts b bs d1) by assumption.
    cbn [res db steps]. split.
    - destruct Hact as [-> | ->]; discriminate.
    - intros _. exists b, bs, d1. tauto. }
  destruct (sendBookingStatusUpdate b i (outcome_of action)) as [e |] eqn:Hs.
  - unfold request.
    rewrite (path_send_throws action token (new_request w)
               t ts b bs d1 Hact Hrel Htok Hbook Hst Hdo i is_ e Hinf Hs).
    cbn. split; [discriminate | destruct Hact as [-> | ->]; discriminate].
  - assert (Hres : dispatcher_resolves action b (consumed w t d1))
      by (unfold dispatcher_resolves; now rewrite Hinf).
    rewrite (path_committed action token w t ts b bs d1) by assumption.
    cbn [res db steps]. split.
    + destruct Hact as [-> | ->]; discriminate.
    + intros _. exists b, bs, d1. tauto.
Qed.



(** The token table after a committed transition: no row with the
    presented value can be selected again. *)
Lemma consumed_token_not_selectable action token w t ts b d1 now :
  token_values_unique (db w) ->
  SpecModel.preserves_tokens AdminRejectOrCancelBooking ->
  Sql.select_valid_tokens token (clock (2 + steps w)) (db w) = t :: ts ->
  apply_action action (Booking.id b) (db w) = inl d1 ->
  Sql.select_valid_tokens token now (consumed w t d1) = [].
Proof.
  intros Huniq Hpres Htok Hdo.
  assert (Hsame : email_action_tokens d1 = email_action_tokens (db w)).
  { unfold apply_action in Hdo.
    destruct (action =? "approve")%string.
    - injection Hdo as <-. reflexivity.
    - eapply Hpres; eassumption. }
  destruct (select_valid_tokens_head _ _ _ _ _ Htok) as [Hin Hv].
  apply token_is_valid_iff in Hv. destruct Hv as (Hval & _).
  unfold Sql.select_valid_tokens. apply filter_nil_iff.
  intros r Hr. unfold consumed, Sql.update_token_used in Hr. cbn in Hr.
  rewrite Hsame in Hr. apply in_map_iff in Hr.
  destruct Hr as (r0 & Hr & Hin0).
  destruct (Sql.token_is_valid token now r) eqn:Hvr; [| reflexivity].
  exfalso. apply token_is_valid_iff in Hvr. destruct Hvr as (Hv1 & Hv2 & _).
  assert (Htok0 : Token.token r0 = token).
  { destruct (Token.id r0 =? Token.id t); subst r; exact Hv1. }
  assert (r0 = t).
  { apply (map_injective_on_nodup Token.token (email_action_tokens (db w)));
      [exact Huniq | assumption | assumption | congruence]. }
  subst r0. rewrite Z.eqb_refl in Hr. subst r. cbn in Hv2. discriminate.
Qed.

(** C2, as the handler has it: when a first request succeeds with a real
    transition, a second request with the same token is answered
    InvalidOrExpiredToken (the token is now used, so validation fails
    before the booking is looked at): neither AlreadyProcessed nor a second
    success, and the store is left as the first request committed it. *)
Theorem replay_is_invalid_token action action' token w :
  store_reliable ->
  token_values_unique (db w) ->
  SpecModel.preserves_tokens AdminRejectOrCancelBooking ->
  recognised action' ->
  let w1 := request action token w in
  let w2 := request action' token w1 in
  res w1 = Some (success_response action) ->
  res w2 = Some invalid_token_response
  /\ (forall s, res w2 <> Some (already_processed_response s))
  /\ res w2 <> Some (success_response action')
  /\ db w2 = db w1.
Proof.
  intros Hrel Huniq Hpres Hact' w1 w2 Hok.
  assert (Hact : recognised action).
  { destruct (recognised_dec action) as [H | H]; [exact H |].
    subst w1. unfold request in Hok.
    rewrite path_invalid_action in Hok by assumption.
    cbn in Hok. discriminate. }
  destruct (Sql.select_valid_tokens token (clock (2 + steps w)) (db w))
    as [| t ts] eqn:Htok.
  { subst w1. unfold request in Hok.
    rewrite (path_invalid_token action token (new_request w)) in Hok
      by assumption.
    cbn in Hok. destruct Hact as [-> | ->]; discriminate. }
  destruct (valid_token_answers action token w t ts Hact Hrel Htok)
    as [_ Hinv].
  destruct (Hinv Hok) as (b & bs & d1 & _ & _ & Hdo & _ & Hdb & Hsteps).
  fold w1 in Hdb, Hsteps.
  assert (Hgone :
    Sql.select_valid_tokens token (clock (2 + steps (new_request w1)))
      (db (new_request w1)) = []).
  { cbn [new_request db steps]. rewrite Hdb.
    eapply consumed_token_not_selectable; eassumption. }
  subst w2. unfold request.
  rewrite (path_invalid_token action' token (new_request w1)) by assumption.
  cbn [snd res db new_request].
  repeat split; discriminate.
Qed.

Lemma notification_has_no_procedure_call action b d :
  existsb is_procedure_call (notification action b d) = false.
Proof.
  unfold notification.
  now destruct (Sql.select_infrastructures (Booking.infrastructure_id b) d).
Qed.

(** C7, as the handler has it: on a pending booking reached with a valid
    token, when no store call throws, the outcome is decided by the stored
    procedure and the dispatcher, both called before the commit.  When
    the action statement succeeds and the dispatcher call resolves (or is
    not made), the transition is committed: [approve] puts the booking in
    status [approved] by its own UPDATE and calls no procedure; [reject]
    calls the stored procedure with the booking id and [rejected], after
    [beginTransaction] and before [commit], so that, the procedure keeping
    its contract, the booking is [rejected] and its window is reservable
    again.  When the dispatcher call or the procedure throws, the
    transaction is rolled back and the store, the booking with it, is as
    before the request. *)
Theorem pending_transition action token w t ts b bs :
  SpecModel.releases_timeslot AdminRejectOrCancelBooking ->
  recognised action -> store_reliable ->
  Sql.select_valid_tokens token (clock (2 + steps w)) (db w) = t :: ts ->
  Sql.select_bookings (Token.booking_id t) (db w) = b :: bs ->
  Booking.status b = "pending" ->
  let w' := request action token w in
  (forall d1,
     apply_action action (Booking.id b) (db w) = inl d1 ->
     dispatcher_resolves action b (consumed w t d1) ->
     tx w' = None
     /\ res w' = Some (success_response action)
     /\ (action = "approve" ->
         booking_has_status (Booking.id b) "approved" (db w')
         /\ bookings (db w')
            = map (fun x => if Booking.id x =? Booking.id b
                            then Booking.set_status "approved" x else x)
                  (bookings (db w))
         /\ existsb is_procedure_call (trace w') = false)
     /\ (action = "reject" ->
         AdminRejectOrCancelBooking (Booking.id b) "rejected" (db w) = inl d1
         /\ booking_has_status (Booking.id b) "rejected" (db w')
         /\ In (Booking.set_status "rejected" b) (bookings (db w'))
         /\ SpecModel.reservable b (db w') = true
         /\ trace w' =
              ([GetConnection; BeginTransaction;
                Execute (SelectToken token);
                Execute (SelectBooking (Token.booking_id t));
                Execute (CallAdminRejectOrCancelBooking
                           (Booking.id b) "rejected");
                Execute (UpdateTokenUsed (Token.id t));
                Execute (SelectInfrastructure (Booking.infrastructure_id b))]
               ++ notification "reject" b (consumed w t d1)
               ++ [Commit; Respond (success_response "reject");
                   Release])%list))
  /\ (forall d1,
       apply_action action (Booking.id b) (db w) = inl d1 ->
       ~ dispatcher_resolves action b (consumed w t d1) ->
       res w' = Some error_response /\ db w' = db w /\ tx w' = None)
  /\ (forall e,
       apply_action action (Booking.id b) (db w) = inr e ->
       res w' = Some error_response /\ db w' = db w /\ tx w' = None).
Proof.
  intros Hcontract Hact Hrel Htok Hbook Hst w'. subst w'.
  destruct (select_bookings_head _ _ _ _ Hbook) as [Hin _].
  split; [| split].
  - intros d1 Hdo Hres.
    rewrite (path_committed action token w t ts b bs d1) by assumption.
    cbn [res db tx trace].
    split; [reflexivity |]. split; [reflexivity |]. split.
    + intros ->. cbn in Hdo. injection Hdo as <-. repeat split.
      * exists (Booking.set_status "approved" b). split; [| now split].
        now apply update_booking_approved_marks.
      * intros x Hx Hid.
        now apply (update_booking_approved_has_status
                     (Booking.id b) (db w) b Hin eq_refl).
      * rewrite existsb_app, existsb_app, notification_has_no_procedure_call.
        reflexivity.
    + intros ->. cbn in Hdo.
      destruct (Hcontract _ _ _ _ b Hdo Hin eq_refl) as (Hst' & Hrej & Hfree).
      repeat split; try assumption; apply Hst'.
  - intros d1 Hdo Hno. unfold dispatcher_resolves in Hno.
    destruct (Sql.select_infrastructures (Booking.infrastructure_id b)
                (consumed w t d1)) as [| i is_] eqn:Hinf;
      [now contradiction Hno |].
    destruct (sendBookingStatusUpdate b i (outcome_of action)) as [e |] eqn:Hs;
      [| now contradiction Hno].
    unfold request.
    now rewrite (path_send_throws action token (new_request w)
                   t ts b bs d1 Hact Hrel Htok Hbook Hst Hdo i is_ e Hinf Hs).
  - intros e Hdo. unfold request.
    now rewrite (path_action_throws action token (new_request w)
                   t ts b bs e Hact Hrel Htok Hbook Hst Hdo).
Qed.

(** C5, as the handler has it: the action performed is the one of the URL
    segment, whatever action the token was bound to.  Validation looks at
    the token's value, [used] and [expires] only, and a request whose
    action differs from the bound action of its token is accepted and
    carried out like any other. *)
Theorem url_action_is_trusted action token w t ts b bs d1 :
  recognised action -> store_reliable ->
  Sql.select_valid_tokens token (clock (2 + steps w)) (db w) = t :: ts ->
  Sql.select_bookings (Token.booking_id t) (db w) = b :: bs ->
  Booking.status b = "pending" ->
  apply_action action (Booking.id b) (db w) = inl d1 ->
  dispatcher_resolves action b (consumed w t d1) ->
  Token.action t <> action ->
  let w' := request action token w in
  res w' = Some (success_response action)
  /\ Response.action (success_response action) = Some action
  /\ db w' = consumed w t d1
  /\ In (Execute (action_statement action (Booking.id b))) (trace w')
  /\ (forall a now r,
        Sql.token_is_valid token now (Token.set_action a r)
        = Sql.token_is_valid token now r).
Proof.
  intros Hact Hrel Htok Hbook Hst Hdo Hres _ w'. subst w'.
  rewrite (path_committed action token w t ts b bs d1) by assumption.
  cbn [res db trace]. repeat split.
  unfold prefix. cbn. tauto.
Qed.


(** ** Properties of every path of the handler *)

(** Case analysis over every store call, lookup and collaborator. *)
Ltac crunch :=
  repeat (match goal with
  | |- context [store_fails ?n] => destruct (store_fails n) eqn:?
  | |- context [match ?l with [] => _ | _ :: _ => _ end] => destruct l eqn:?
  | |- context [match sendBookingStatusUpdate ?a ?b ?c with _ => _ end] =>
      destruct (sendBookingStatusUpdate a b c) eqn:?
  | |- context [match AdminRejectOrCancelBooking ?a ?b ?c with _ => _ end] =>
      destruct (AdminRejectOrCancelBooking a b c) eqn:?
  | |- context [(?s =? ?t)%string] => destruct (s =? t)%string eqn:?
  end; cbn).

Ltac all_paths :=
  unfold completion, request, new_request; unfold_route; cbn; crunch.

(** X1: on every path, whatever fails, a request that obtained a connection
    releases it exactly once, as its last event; a request that obtained
    none (unrecognised action, or [getConnection] throwing) releases
    nothing and issues at most the one store call that failed. *)
Theorem connection_released_on_every_path action token w :
  let tr := trace (request action token w) in
  (existsb is_get_connection tr = true ->
   hd_error tr = Some GetConnection
   /\ last tr GetConnection = Release
   /\ List.length (filter is_release tr) = 1%nat
   /\ List.length (filter is_get_connection tr) = 1%nat)
  /\ (existsb is_get_connection tr = false ->
      existsb is_release tr = false
      /\ steps (request action token w) <= S (steps w))%nat.
Proof.
  all_paths; split; intros H; try discriminate; repeat split; auto.
Qed.

(** X2: on every path a request sends at most one response, the one left in
    [res]; it goes unanswered exactly when the promise of the handler
    rejects, and never when no store call throws, whatever the stored
    procedure and the dispatcher do. *)
Theorem answered_exactly_once action token w :
  let w' := request action token w in
  responses (trace w') = match res w' with Some r => [r] | None => [] end
  /\ (res w' = None <-> exists e, completion action token w = Thrown e)
  /\ (store_reliable -> res w' <> None).
Proof.
  all_paths;
    (split; [reflexivity |]);
    (split;
     [ first [ split; [discriminate | intros [? ?]; discriminate]
             | split; [intros _; eexists; reflexivity | reflexivity] ]
     | intros Hrel; first [ discriminate
                          | exfalso;
                            match goal with
                            | H : store_fails _ = true |- _ =>
                                rewrite Hrel in H; discriminate
                            end ] ]).
Qed.
Lemma suffix_here {A} (s : list A) : exists pre, s = (pre ++ s)%list.
Proof. now exists []. Qed.

Lemma suffix_later {A} (a : A) (l s : list A) :
  (exists pre, l = (pre ++ s)%list) -> exists pre, a :: l = (pre ++ s)%list.
Proof. intros [pre ->]. now exists (a :: pre). Qed.

Ltac find_suffix := repeat first [ apply suffix_here | apply suffix_later ].

(** X3: a response with a true success flag is the 200 success response, and
    it is sent only once the commit has completed: the request ends with
    commit, response, release, and no transaction is left open. *)
Theorem success_answer_follows_commit action token w r :
  let w' := request action token w in
  res w' = Some r -> Response.success r = true ->
  r = success_response action
  /\ tx w' = None
  /\ exists pre, trace w' = (pre ++ [Commit; Respond r; Release])%list.
Proof.
  all_paths; intros Hr Hs; try discriminate;
    injection Hr as <-; try discriminate;
    repeat split; find_suffix.
Qed.

(** X4: on a connection with no transaction open, the 500 answer is only sent
    after a completed rollback: the store is exactly as before the
    request, no commit has completed and no transaction is left open. *)
Theorem error_answer_means_rolled_back action token w :
  tx w = None ->
  let w' := request action token w in
  res w' = Some error_response ->
  db w' = db w
  /\ tx w' = None
  /\ existsb is_commit (trace w') = false
  /\ existsb is_rollback (trace w') = true.
Proof.
  intros Htx. all_paths; intros Hr; try discriminate;
    rewrite ?Htx; repeat split.
Qed.

(** X5: on a connection with no transaction open, a request whose commit
    does not complete leaves the committed store as it was, whichever
    call failed. *)
Theorem nothing_durable_without_commit action token w :
  tx w = None ->
  existsb is_commit (trace (request action token w)) = false ->
  committed_store (request action token w) = db w.
Proof.
  intros Htx. unfold committed_store.
  all_paths; rewrite ?Htx; intros Hc; try discriminate; reflexivity.
Qed.

(** X6: on a connection with no transaction open, a request whose token is
    not valid, or whose token is bound to no booking row, commits nothing
    and leaves the committed store as it was, whatever fails. *)
Theorem no_write_without_booking action token w :
  tx w = None ->
  (forall t ts,
     Sql.select_valid_tokens token (clock (2 + steps w)) (db w) = t :: ts ->
     Sql.select_bookings (Token.booking_id t) (db w) = []) ->
  committed_store (request action token w) = db w
  /\ existsb is_commit (trace (request action token w)) = false.
Proof.
  intros Htx Hnone. cbn in Hnone. unfold committed_store.
  all_paths; rewrite ?Htx; try (split; reflexivity);
    match goal with
    | Hb : Sql.select_bookings _ _ = _ :: _ |- _ =>
        rewrite (Hnone _ _ eq_refl) in Hb; discriminate
    end.
Qed.

(** X7: on a connection with no transaction open, unless the token is valid
    and its booking is [pending], the request changes no booking row and no
    infrastructure row of the committed store and never invokes the
    dispatcher, whatever fails. *)
Theorem non_pending_booking_untouched action token w :
  tx w = None ->
  (forall t ts b bs,
     Sql.select_valid_tokens token (clock (2 + steps w)) (db w) = t :: ts ->
     Sql.select_bookings (Token.booking_id t) (db w) = b :: bs ->
     Booking.status b <> "pending") ->
  bookings (committed_store (request action token w)) = bookings (db w)
  /\ infrastructures (committed_store (request action token w))
     = infrastructures (db w)
  /\ existsb is_send (trace (request action token w)) = false.
Proof.
  intros Htx Hnp. cbn in Hnp. unfold committed_store.
  all_paths; rewrite ?Htx;
    try (repeat split; reflexivity);
    match goal with
    | Hs : (_ =? "pending")%string = true |- _ =>
        apply String.eqb_eq in Hs; exfalso;
        eapply Hnp; [reflexivity | eassumption | assumption]
    end.
Qed.

Lemma forall2_map_evolves (f : Token.row -> Token.row) (l : list Token.row) :
  (forall r, token_row_evolves r (f r)) ->
  Forall2 token_row_evolves l (map f l).
Proof.
  intros Hf. induction l as [| a l IH]; cbn; constructor; auto.
Qed.

Lemma forall2_evolves_refl (l : list Token.row) :
  Forall2 token_row_evolves l l.
Proof. induction l; constructor; auto. now left. Qed.

Lemma update_token_used_evolves tid now d l :
  l = email_action_tokens d ->
  Forall2 token_row_evolves l
          (email_action_tokens (Sql.update_token_used tid now d)).
Proof.
  intros ->. unfold Sql.update_token_used. cbn. apply forall2_map_evolves.
  intros r. destruct (Token.id r =? tid); [right; now exists now | now left].
Qed.

(** X8: with a stored procedure that leaves the token table alone, on
    every path and whatever transaction the connection starts in, the
    committed token table after a request is the one the connection saw
    at the start with some rows marked used, or else the committed store
    is the one from before: no row is added, removed or reordered, and no
    [used] flag is ever cleared. *)
Theorem token_rows_only_gain_used action token w :
  SpecModel.preserves_tokens AdminRejectOrCancelBooking ->
  let w' := request action token w in
  Forall2 token_row_evolves
          (email_action_tokens (db w))
          (email_action_tokens (committed_store w'))
  \/ committed_store w' = committed_store w.
Proof.
  intros Hpres. unfold committed_store.
  all_paths;
    first [ right; reflexivity
          | left; first
              [ apply forall2_evolves_refl
              | apply update_token_used_evolves; first
                  [ reflexivity
                  | symmetry; eapply Hpres; eassumption ] ] ].
Qed.
Lemma filter_map_commute {A} (p : A -> bool) (g : A -> A) (l : list A) :
  (forall x, p (g x) = p x) ->
  filter p (map g l) = map g (filter p l).
Proof.
  intros Hp. induction l as [| a l IH]; cbn; [reflexivity |].
  rewrite Hp. destruct (p a); cbn; now rewrite IH.
Qed.

(** A token whose row has been marked used cannot be selected again. *)
Lemma used_token_not_selectable token d t ts now now1 now2 :
  token_values_unique d ->
  Sql.select_valid_tokens token now d = t :: ts ->
  Sql.select_valid_tokens token now2
    (Sql.update_token_used (Token.id t) now1 d) = [].
Proof.
  intros Huniq Htok.
  destruct (select_valid_tokens_head _ _ _ _ _ Htok) as [Hin Hv].
  apply token_is_valid_iff in Hv. destruct Hv as (Hval & _).
  unfold Sql.select_valid_tokens. apply filter_nil_iff.
  intros r Hr. unfold Sql.update_token_used in Hr. cbn in Hr.
  apply in_map_iff in Hr. destruct Hr as (r0 & Hr & Hin0).
  destruct (Sql.token_is_valid token now2 r) eqn:Hvr; [| reflexivity].
  exfalso. apply token_is_valid_iff in Hvr. destruct Hvr as (Hv1 & Hv2 & _).
  assert (Htok0 : Token.token r0 = token).
  { destruct (Token.id r0 =? Token.id t); subst r; exact Hv1. }
  assert (r0 = t).
  { apply (map_injective_on_nodup Token.token (email_action_tokens d));
      [exact Huniq | assumption | assumption | congruence]. }
  subst r0. rewrite Z.eqb_refl in Hr. subst r. cbn in Hv2. discriminate.
Qed.

Lemma already_processed_inversion action token w s :
  store_reliable ->
  res (request action token w) = Some (already_processed_response s) ->
  exists t ts,
    Sql.select_valid_tokens token (clock (2 + steps w)) (db w) = t :: ts
    /\ db (request action token w)
       = Sql.update_token_used (Token.id t) (clock (4 + steps w)) (db w)
    /\ steps (request action token w) = (6 + steps w)%nat.
Proof.
  intros Hrel. cbn.
  all_paths; intros Hr; try discriminate;
    try (exfalso;
         match goal with
         | H : store_fails _ = true |- _ => rewrite Hrel in H; discriminate
         end);
    do 2 eexists; repeat split.
Qed.

(** X9: a token answered AlreadyProcessed has been consumed: a second request
    with it is answered InvalidOrExpiredToken and changes nothing. *)
Theorem replay_after_already_processed action action' token w s :
  store_reliable ->
  token_values_unique (db w) ->
  recognised action' ->
  let w1 := request action token w in
  let w2 := request action' token w1 in
  res w1 = Some (already_processed_response s) ->
  res w2 = Some invalid_token_response
  /\ db w2 = db w1.
Proof.
  intros Hrel Huniq Hact' w1 w2 Hap.
  destruct (already_processed_inversion action token w s Hrel Hap)
    as (t & ts & Htok & Hdb & Hsteps).
  fold w1 in Hdb, Hsteps.
  assert (Hgone :
    Sql.select_valid_tokens token (clock (2 + steps (new_request w1)))
      (db (new_request w1)) = []).
  { cbn [new_request db steps]. rewrite Hdb.
    eapply used_token_not_selectable; eassumption. }
  subst w2. unfold request.
  rewrite (path_invalid_token action' token (new_request w1)) by assumption.
  cbn [snd res db new_request]. split; reflexivity.
Qed.

(** X10: after a booking has been approved through one token, any other valid
    token bound to the same booking, on either action, is answered
    AlreadyProcessed with current status [approved]; the booking table is
    left as the approval committed it and the dispatcher is not invoked. *)
Theorem first_decision_wins action' token token' w t ts b bs t' ts' :
  recognised action' -> store_reliable ->
  Sql.select_valid_tokens token (clock (2 + steps w)) (db w) = t :: ts ->
  Sql.select_bookings (Token.booking_id t) (db w) = b :: bs ->
  Booking.status b = "pending" ->
  dispatcher_resolves "approve" b
    (consumed w t (Sql.update_booking_approved (Booking.id b) (db w))) ->
  let w1 := request "approve" token w in
  let w2 := request action' token' w1 in
  Sql.select_valid_tokens token' (clock (2 + steps w1)) (db w1) = t' :: ts' ->
  Token.booking_id t' = Token.booking_id t ->
  res w1 = Some (success_response "approve")
  /\ res w2 = Some (already_processed_response "approved")
  /\ bookings (db w2) = bookings (db w1)
  /\ existsb is_send (trace w2) = false.
Proof.
  intros Hact' Hrel Htok Hbook Hst Hres w1 w2 Htok' Hsame.
  assert (Hw1 : w1 =
    mkWorld (consumed w t (Sql.update_booking_approved (Booking.id b) (db w)))
            None (8 + steps w)
            (prefix "approve" token t b
               ++ notification "approve" b
                    (consumed w t
                       (Sql.update_booking_approved (Booking.id b) (db w)))
               ++ [Commit; Respond (success_response "approve"); Release])%list
            (Some (success_response "approve"))).
  { subst w1. apply (path_committed "approve" token w t ts b bs); auto.
    now left. }
  destruct (select_bookings_head _ _ _ _ Hbook) as [_ Hid].
  assert (Hbook' :
    Sql.select_bookings (Token.booking_id t') (db (new_request w1))
    = Booking.set_status "approved" b
      :: map (fun x => if Booking.id x =? Booking.id b
                       then Booking.set_status "approved" x else x) bs).
  { rewrite Hw1, Hsame. cbn [new_request db].
    unfold consumed, Sql.select_bookings, Sql.update_token_used,
      Sql.update_booking_approved. cbn [bookings].
    rewrite filter_map_commute.
    - fold (Sql.select_bookings (Token.booking_id t) (db w)).
      rewrite Hbook. cbn [map]. now rewrite Z.eqb_refl.
    - intros x. now destruct (Booking.id x =? Booking.id b). }
  split; [now rewrite Hw1 |].
  subst w2. unfold request.
  rewrite (path_already_processed action' token' (new_request w1) t' ts'
             (Booking.set_status "approved" b) _ Hact' Hrel Htok' Hbook')
    by (cbn; discriminate).
  cbn [snd res db trace new_request bookings app Booking.status
       Booking.set_status].
  repeat split.
Qed.
End Route.

(** ** The stored procedure keeps its contract *)

Lemma next_id_above (bs : list Booking.row) b :
  In b bs -> Booking.id b < SpecModel.next_id bs.
Proof.
  unfold SpecModel.next_id.
  induction bs as [| a bs IH]; cbn [In map fold_right]; [intros [] |].
  intros [<- | Hin]; [lia |]. specialize (IH Hin). lia.
Qed.

Lemma model_releases_timeslot :
  SpecModel.releases_timeslot SpecModel.AdminRejectOrCancelBooking.
Proof.
  intros bid st d d' b Hcall Hin Hid.
  unfold SpecModel.AdminRejectOrCancelBooking in Hcall.
  injection Hcall as <-. cbn [bookings].
  assert (Hhit : In b (Sql.select_bookings bid d)).
  { apply filter_In. split; [assumption | now apply Z.eqb_eq]. }
  assert (Hset : In (Booking.set_status st b)
                    (map (fun b0 => if Booking.id b0 =? bid
                                    then Booking.set_status st b0 else b0)
                         (bookings d))).
  { apply in_map_iff. exists b.
    apply Z.eqb_eq in Hid. rewrite Hid. now split. }
  split; [| split].
  - unfold booking_has_status. cbn [bookings]. split.
    + exists (Booking.set_status st b). split; [| now split].
      apply in_or_app. now left.
    + intros x Hx Hxid. apply in_app_or in Hx. destruct Hx as [Hx | Hx].
      * apply in_map_iff in Hx. destruct Hx as (x0 & Hx & _).
        destruct (Booking.id x0 =? bid) eqn:E.
        -- now subst x.
        -- subst x. apply Z.eqb_neq in E. contradiction.
      * apply in_map_iff in Hx. destruct Hx as (x0 & Hx & _).
        subst x. unfold SpecModel.released_window in Hxid.
        cbn [Booking.id] in Hxid.
        pose proof (next_id_above (bookings d) b Hin). lia.
  - apply in_or_app. now left.
  - unfold SpecModel.reservable. cbn [bookings].
    rewrite existsb_app. apply orb_true_iff. right.
    apply existsb_exists.
    exists (SpecModel.released_window (SpecModel.next_id (bookings d)) b).
    split; [now apply in_map |].
    unfold SpecModel.same_window, SpecModel.released_window. cbn.
    now rewrite Z.eqb_refl, !String.eqb_refl.
Qed.

Lemma model_preserves_tokens :
  SpecModel.preserves_tokens SpecModel.AdminRejectOrCancelBooking.
Proof.
  intros bid st d d' Hcall.
  unfold SpecModel.AdminRejectOrCancelBooking in Hcall.
  now injection Hcall as <-.
Qed.

Lemma example_reliable : store_reliable Example.reliable.
Proof. intros n. reflexivity. Qed.

Lemma example_token_values_unique : token_values_unique Example.store.
Proof.
  unfold token_values_unique. cbn.
  repeat constructor; cbn; intuition discriminate.
Qed.

(** ** The properties on the concrete store *)

Local Abbreviation serve :=
  (request Example.clock Example.reliable
           SpecModel.AdminRejectOrCancelBooking Example.delivers).
Local Abbreviation serve_bouncing :=
  (request Example.clock Example.reliable
           SpecModel.AdminRejectOrCancelBooking Example.bounces).
Local Abbreviation serve_commit_failing :=
  (request Example.clock Example.commit_fails
           SpecModel.AdminRejectOrCancelBooking Example.delivers).

Ltac example_premises :=
  first [ exact example_reliable
        | exact example_token_values_unique
        | exact model_releases_timeslot
        | exact model_preserves_tokens
        | left; reflexivity
        | right; reflexivity
        | discriminate
        | intros [H | H]; discriminate
        | vm_compute; reflexivity
        | exact I ].

Lemma invalid_action_rejected_without_store_witness :
  res (serve "cancel" "T1" Example.world) = Some invalid_action_response
  /\ db (serve "cancel" "T1" Example.world) = Example.store
  /\ steps (serve "cancel" "T1" Example.world) = 0%nat.
Proof.
  destruct (invalid_action_rejected_without_store
              Example.clock Example.reliable
              SpecModel.AdminRejectOrCancelBooking Example.delivers
              "cancel" "T1" Example.world)
    as (Hres & _ & _ & _ & Hsteps & Hdb & _).
  - intros [H | H]; discriminate.
  - exact (conj Hres (conj Hdb Hsteps)).
Defined.


Lemma missing_infrastructure_commits_silently_witness :
  res (serve "approve" "T4" Example.world) = Some (success_response "approve")
  /\ tx (serve "approve" "T4" Example.world) = None
  /\ existsb is_send (trace (serve "approve" "T4" Example.world)) = false
  /\ booking_has_status 43 "approved" (db (serve "approve" "T4" Example.world))
  /\ token_consumed 4 (db (serve "approve" "T4" Example.world)).
Proof.
  destruct (missing_infrastructure_commits_silently
              Example.clock Example.reliable
              SpecModel.AdminRejectOrCancelBooking Example.delivers
              "approve" "T4" Example.world Example.T4 [] Example.B43 []
              (Sql.update_booking_approved 43 Example.store))
    as (Hres & _ & _ & _ & _ & _ & Htx & _ & Hsend & Happrove & _);
    [ example_premises .. | ].
  destruct (Happrove eq_refl) as [Hst Hused].
  exact (conj Hres (conj Htx (conj Hsend (conj Hst Hused)))).
Defined.

Lemma notification_precedes_commit_witness :
  trace (serve "approve" "T1" Example.world)
  = [GetConnection; BeginTransaction; Execute (SelectToken "T1");
     Execute (SelectBooking 42); Execute (UpdateBookingApproved 42);
     Execute (UpdateTokenUsed 1); Execute (SelectInfrastructure 5);
     SendBookingStatusUpdate Example.B42 Example.Lab "approved";
     Commit; Respond (success_response "approve"); Release].
Proof.
  destruct (notification_precedes_commit
              Example.clock Example.reliable
              SpecModel.AdminRejectOrCancelBooking Example.delivers
              "approve" "T1" Example.world Example.T1 [] Example.B42 []
              (Sql.update_booking_approved 42 Example.store) Example.Lab [])
    as (Htr & _); [ example_premises .. | ].
  exact Htr.
Defined.

Lemma dispatcher_failure_rolls_back_witness :
  res (serve_bouncing "approve" "T1" Example.world) = Some error_response
  /\ db (serve_bouncing "approve" "T1" Example.world) = Example.store.
Proof.
  destruct (dispatcher_failure_rolls_back
              Example.clock Example.reliable
              SpecModel.AdminRejectOrCancelBooking Example.bounces
              "approve" "T1" Example.world Example.T1 [] Example.B42 []
              (Sql.update_booking_approved 42 Example.store) Example.Lab []
              "SMTP failure")
    as (Hres & _ & Hdb & _); [ example_premises .. | ].
  exact (conj Hres Hdb).
Defined.

Lemma replay_is_invalid_token_witness :
  res (serve "approve" "T1" (serve "approve" "T1" Example.world))
  = Some invalid_token_response
  /\ db (serve "approve" "T1" (serve "approve" "T1" Example.world))
     = db (serve "approve" "T1" Example.world).
Proof.
  destruct (replay_is_invalid_token
              Example.clock Example.reliable
              SpecModel.AdminRejectOrCancelBooking Example.delivers
              "approve" "approve" "T1" Example.world)
    as (Hres & _ & _ & Hdb); [ example_premises .. | ].
  exact (conj Hres Hdb).
Defined.


Lemma pending_transition_witness :
  booking_has_status 42 "rejected" (db (serve "reject" "T1" Example.world))
  /\ SpecModel.reservable Example.B42 (db (serve "reject" "T1" Example.world))
     = true
  /\ tx (serve "reject" "T1" Example.world) = None.
Proof.
  destruct (pending_transition
              Example.clock Example.reliable
              SpecModel.AdminRejectOrCancelBooking Example.delivers
              "reject" "T1" Example.world Example.T1 [] Example.B42 [])
    as (Hcommit & _); [ example_premises .. | ].
  destruct (Hcommit Example.rejected_store) as (Htx & _ & _ & Hrej);
    [ vm_compute; reflexivity | vm_compute; reflexivity | ].
  destruct (Hrej eq_refl) as (_ & Hst & _ & Hfree & _).
  exact (conj Hst (conj Hfree Htx)).
Defined.

Lemma url_action_is_trusted_witness :
  Token.action Example.T1 = "approve"
  /\ res (serve "reject" "T1" Example.world) = Some (success_response "reject")
  /\ In (Execute (CallAdminRejectOrCancelBooking 42 "rejected"))
        (trace (serve "reject" "T1" Example.world)).
Proof.
  destruct (url_action_is_trusted
              Example.clock Example.reliable
              SpecModel.AdminRejectOrCancelBooking Example.delivers
              "reject" "T1" Example.world Example.T1 [] Example.B42 []
              Example.rejected_store)
    as (Hres & _ & _ & Hin & _); [ example_premises .. | ].
  exact (conj eq_refl (conj Hres Hin)).
Defined.

(** C1 as the specification states it fails: on the success path the dispatcher
    is invoked while the transaction is still open, before the commit; and
    when that commit then throws, the transaction is rolled back although
    the notification has already been sent. *)
Lemma notification_before_commit_counterexample :
  res (serve "approve" "T1" Example.world) = Some (success_response "approve")
  /\ notified_only_after_commit (trace (serve "approve" "T1" Example.world))
     = false
  /\ existsb is_send
       (trace (serve_commit_failing "approve" "T1" Example.world)) = true
  /\ In Rollback (trace (serve_commit_failing "approve" "T1" Example.world))
  /\ db (serve_commit_failing "approve" "T1" Example.world) = Example.store.
Proof.
  vm_compute. repeat split; tauto.
Qed.

(** C2 as the specification states it fails: the second request with a token
    that has just succeeded is answered InvalidOrExpiredToken, not
    AlreadyProcessed. *)
Lemma replay_not_already_processed_counterexample :
  res (serve "approve" "T1" Example.world) = Some (success_response "approve")
  /\ res (serve "approve" "T1" (serve "approve" "T1" Example.world))
     = Some invalid_token_response
  /\ forall s,
       res (serve "approve" "T1" (serve "approve" "T1" Example.world))
       <> Some (already_processed_response s).
Proof.
  repeat split; vm_compute; discriminate.
Qed.

(** C4 as the specification states it fails: a dispatcher call that throws makes
    the handler roll the transition back and answer 500. *)
Lemma dispatcher_failure_not_swallowed_counterexample :
  res (serve_bouncing "approve" "T1" Example.world) = Some error_response
  /\ In Rollback (trace (serve_bouncing "approve" "T1" Example.world))
  /\ ~ In Commit (trace (serve_bouncing "approve" "T1" Example.world))
  /\ In Example.B42 (bookings (db (serve_bouncing "approve" "T1" Example.world)))
  /\ In Example.T1
        (email_action_tokens (db (serve_bouncing "approve" "T1" Example.world))).
Proof.
  vm_compute. repeat split; try tauto.
  intros H. repeat (destruct H as [H | H]; [discriminate |]). exact H.
Qed.

(** C5 as the specification states it fails: token T1 is bound to [approve], the
    URL says [reject], and the request is accepted and rejects booking 42. *)
Lemma url_action_divergence_counterexample :
  Token.action Example.T1 = "approve"
  /\ res (serve "reject" "T1" Example.world) = Some (success_response "reject")
  /\ In (Booking.set_status "rejected" Example.B42)
        (bookings (db (serve "reject" "T1" Example.world))).
Proof.
  vm_compute. repeat split; tauto.
Qed.

(** C7 as the specification states it fails: token T1 is valid, booking 42
    is [pending] and the action is [approve], yet with a dispatcher call
    that throws the answer is 500 and booking 42 is still [pending], not
    [approved]. *)
Lemma pending_transition_counterexample :
  Sql.select_valid_tokens "T1" (Example.clock 2) Example.store = [Example.T1]
  /\ Sql.select_bookings 42 Example.store = [Example.B42]
  /\ Booking.status Example.B42 = "pending"
  /\ res (serve_bouncing "approve" "T1" Example.world) = Some error_response
  /\ booking_has_status 42 "pending"
       (db (serve_bouncing "approve" "T1" Example.world))
  /\ ~ booking_has_status 42 "approved"
         (db (serve_bouncing "approve" "T1" Example.world)).
Proof.
  assert (Hdb : db (serve_bouncing "approve" "T1" Example.world)
                = Example.store) by (vm_compute; reflexivity).
  rewrite Hdb.
  split; [vm_compute; reflexivity |]. split; [vm_compute; reflexivity |].
  split; [reflexivity |]. split; [vm_compute; reflexivity |]. split.
  - split.
    + exists Example.B42. split; [now left | now split].
    + intros x [<- | [<- | [<- | []]]] Hid; try reflexivity; discriminate.
  - intros [(x & Hin & Hid & Hst) _].
    destruct Hin as [<- | [<- | [<- | []]]]; discriminate.
Qed.

(** C8 on the concrete store: token T3 is valid and bound to booking 99,
    which does not exist.  The answer is 404 and no row is changed, but the
    handler issues neither [rollback] nor [commit]: the connection is
    released with the transaction still open. *)
Theorem booking_not_found_leaves_transaction_open :
  res (serve "approve" "T3" Example.world) = Some booking_not_found_response
  /\ db (serve "approve" "T3" Example.world) = Example.store
  /\ trace (serve "approve" "T3" Example.world)
     = [GetConnection; BeginTransaction; Execute (SelectToken "T3");
        Execute (SelectBooking 99);
        Respond booking_not_found_response; Release]
  /\ ~ In Rollback (trace (serve "approve" "T3" Example.world))
  /\ tx (serve "approve" "T3" Example.world) = Some Example.store.
Proof.
  repeat split; try reflexivity.
  vm_compute. intros H.
  repeat (destruct H as [H | H]; [discriminate |]). exact H.
Qed.

(** ** Strings and regular expressions *)

Lemma jsstring_eqb_eq s1 : forall s2,
  JsString.eqb s1 s2 = true <-> s1 = s2.
Proof.
  induction s1 as [| c1 r1 IH]; intros [| c2 r2]; cbn;
    try (split; [discriminate | discriminate]); [tauto |].
  rewrite andb_true_iff, N.eqb_eq, IH. split.
  - now intros [-> ->].
  - intros H. injection H as -> ->. tauto.
Qed.

Lemma jsstring_eqb_nil s : JsString.eqb s [] = true <-> s = [].
Proof. apply jsstring_eqb_eq. Qed.

Lemma trimStart_empty_iff ws s :
  JsString.trimStart ws s = [] <-> forallb ws s = true.
Proof.
  induction s as [| c s IH]; cbn; [tauto |].
  destruct (ws c); cbn; [exact IH | split; discriminate].
Qed.

Lemma trimEnd_empty_iff ws s :
  JsString.trimEnd ws s = [] <-> forallb ws s = true.
Proof.
  induction s as [| c s IH]; cbn; [tauto |].
  destruct (JsString.trimEnd ws s) eqn:Ht.
  - destruct (ws c); cbn; [| split; discriminate].
    split; intros _; [now apply IH | reflexivity].
  - rewrite andb_true_iff. split; [discriminate |].
    intros [_ H]. apply IH in H. discriminate.
Qed.

(** What [trimStart] leaves is empty or begins outside the class. *)
Lemma trimStart_head ws s :
  match JsString.trimStart ws s with
  | [] => True
  | c :: _ => ws c = false
  end.
Proof.
  induction s as [| c s IH]; cbn; [exact I |].
  destruct (ws c) eqn:Hc; [exact IH | exact Hc].
Qed.

Lemma trim_empty_iff ws s :
  JsString.trim ws s = [] <-> forallb ws s = true.
Proof.
  unfold JsString.trim. rewrite trimEnd_empty_iff. split.
  - intros H. apply trimStart_empty_iff.
    pose proof (trimStart_head ws s) as Hh.
    destruct (JsString.trimStart ws s) as [| c r]; [reflexivity |].
    cbn in H. rewrite Hh in H. discriminate.
  - intros H. apply trimStart_empty_iff in H. now rewrite H.
Qed.

(** [s.trim() !== ''] exactly when [s] has a code unit that is not white
    space. *)
Lemma trim_visible_iff ws s :
  JsString.eqb (JsString.trim ws s) [] = false <-> JsString.visible ws s.
Proof.
  rewrite <- Bool.not_true_iff_false, jsstring_eqb_nil, trim_empty_iff.
  unfold JsString.visible. split.
  - intros H. destruct (forallb ws s) eqn:Hf; [congruence |].
    clear H. induction s as [| c l IH]; [discriminate |].
    cbn in Hf. destruct (ws c) eqn:Hc.
    + destruct (IH Hf) as (c' & Hin & Hc'). exists c'. split; [now right | easy].
    + exists c. split; [now left | easy].
  - intros (c & Hin & Hc) Hf. rewrite forallb_forall in Hf.
    rewrite (Hf c Hin) in Hc. discriminate.
Qed.

Lemma nullable_iff r : Regex.nullable r = true <-> Regex.matches r [].
Proof.
  induction r; cbn.
  - split; [discriminate | intros H; inversion H].
  - split; [constructor | reflexivity].
  - split; [discriminate | intros H; inversion H].
  - rewrite andb_true_iff, IHr1, IHr2. split.
    + intros [H1 H2]. exact (Regex.m_seq _ _ [] [] H1 H2).
    + intros H. inversion H; subst.
      match goal with
      | Heq : (?a ++ ?b)%list = [] |- _ =>
          apply app_eq_nil in Heq; destruct Heq; subst a b
      end. tauto.
  - rewrite orb_true_iff, IHr1, IHr2. split.
    + intros [H | H]; [now apply Regex.m_alt_l | now apply Regex.m_alt_r].
    + intros H. inversion H; subst; tauto.
  - split; [constructor | reflexivity].
Qed.

(** A non-empty match of [r*] begins with a non-empty match of [r]. *)
Lemma star_cons_inv r c s :
  Regex.matches (Regex.Star r) (c :: s) ->
  exists s1 s2, s = (s1 ++ s2)%list
                /\ Regex.matches r (c :: s1)
                /\ Regex.matches (Regex.Star r) s2.
Proof.
  intros H. remember (Regex.Star r) as r' eqn:Hr.
  remember (c :: s) as s' eqn:Hs.
  induction H as [| | | | | | r0 s1 s2 H1 _ H2 IH2]; try discriminate.
  injection Hr as Hr. subst r0.
  destruct s1 as [| c1 s1]; cbn in Hs.
  - now apply IH2.
  - injection Hs as Hc Hs. subst c1 s. now exists s1, s2.
Qed.

Lemma seq_cons_inv r1 r2 c s :
  Regex.matches (Regex.Seq r1 r2) (c :: s) ->
  (exists s1 s2, s = (s1 ++ s2)%list
                 /\ Regex.matches r1 (c :: s1) /\ Regex.matches r2 s2)
  \/ (Regex.matches r1 [] /\ Regex.matches r2 (c :: s)).
Proof.
  intros H. remember (Regex.Seq r1 r2) as r eqn:Hr.
  remember (c :: s) as s' eqn:Hs.
  destruct H as [| | q1 q2 s1 s2 H1 H2 | | | |]; try discriminate.
  injection Hr as Hq1 Hq2. subst q1 q2.
  destruct s1 as [| c1 s1]; cbn in Hs.
  - right. subst s2. tauto.
  - injection Hs as Hc Hs. subst c1 s. left. now exists s1, s2.
Qed.

Lemma derive_iff r : forall c s,
  Regex.matches (Regex.derive c r) s <-> Regex.matches r (c :: s).
Proof.
  induction r; intros c s; cbn.
  - split; intros H; inversion H.
  - split; intros H; inversion H.
  - destruct (p c) eqn:Hp; split; intros H; inversion H; subst.
    + now constructor.
    + constructor.
    + congruence.
  - assert (Hseq : Regex.matches (Regex.Seq (Regex.derive c r1) r2) s ->
                   Regex.matches (Regex.Seq r1 r2) (c :: s)).
    { intros H. inversion H; subst.
      match goal with
      | H1 : Regex.matches (Regex.derive c r1) ?s1,
        H2 : Regex.matches r2 ?s2 |- _ =>
          apply IHr1 in H1;
          exact (Regex.m_seq _ _ (c :: s1) s2 H1 H2)
      end. }
    assert (Hinv : Regex.matches (Regex.Seq r1 r2) (c :: s) ->
                   Regex.matches (Regex.Seq (Regex.derive c r1) r2) s
                   \/ (Regex.matches r1 [] /\ Regex.matches r2 (c :: s))).
    { intros H. destruct (seq_cons_inv _ _ _ _ H)
        as [(s1 & s2 & -> & H1 & H2) | H']; [left | now right].
      constructor; [now apply IHr1 | easy]. }
    destruct (Regex.nullable r1) eqn:Hn.
    + split.
      * intros H. inversion H; subst; [now apply Hseq |].
        apply nullable_iff in Hn.
        apply (Regex.m_seq _ _ [] (c :: s) Hn). now apply IHr2.
      * intros H. destruct (Hinv H) as [H' | [_ H']].
        -- now apply Regex.m_alt_l.
        -- apply Regex.m_alt_r. now apply IHr2.
    + split; [exact Hseq |].
      intros H. destruct (Hinv H) as [H' | [H' _]]; [exact H' |].
      apply nullable_iff in H'. congruence.
  - split; intros H; inversion H; subst.
    + apply Regex.m_alt_l. now apply IHr1.
    + apply Regex.m_alt_r. now apply IHr2.
    + apply Regex.m_alt_l. now apply IHr1.
    + apply Regex.m_alt_r. now apply IHr2.
  - split.
    + intros H. inversion H; subst.
      match goal with
      | H1 : Regex.matches (Regex.derive c r) ?s1,
        H2 : Regex.matches (Regex.Star r) ?s2 |- _ =>
          apply IHr in H1;
          exact (Regex.m_star_cons _ (c :: s1) s2 H1 H2)
      end.
    + intros H. apply star_cons_inv in H.
      destruct H as (s1 & s2 & -> & H1 & H2).
      constructor; [now apply IHr | easy].
Qed.

Lemma test_iff s : forall r,
  Regex.test r s = true <-> Regex.matches r s.
Proof.
  induction s as [| c s IH]; intros r; cbn.
  - apply nullable_iff.
  - rewrite IH. apply derive_iff.
Qed.

Lemma matches_seq_iff r1 r2 s :
  Regex.matches (Regex.Seq r1 r2) s <->
  exists s1 s2, s = (s1 ++ s2)%list
                /\ Regex.matches r1 s1 /\ Regex.matches r2 s2.
Proof.
  split.
  - intros H. inversion H; subst. eauto.
  - intros (s1 & s2 & -> & H1 & H2). now constructor.
Qed.

Lemma matches_class_iff p s :
  Regex.matches (Regex.Class p) s <-> exists c, s = [c] /\ p c = true.
Proof.
  split.
  - intros H. inversion H; subst. eauto.
  - intros (c & -> & H). now constructor.
Qed.

Lemma matches_star_class_iff p s :
  Regex.matches (Regex.Star (Regex.Class p)) s <-> forallb p s = true.
Proof.
  split.
  - intros H. remember (Regex.Star (Regex.Class p)) as r eqn:Hr.
    induction H as [| | | | | | r0 s1 s2 H1 _ H2 IH2]; try discriminate;
      [reflexivity |].
    injection Hr as Hr. subst r0. inversion H1; subst.
    cbn. rewrite andb_true_iff. split; [assumption | now apply IH2].
  - induction s as [| c s IH]; cbn; [constructor |].
    rewrite andb_true_iff. intros [Hc Hs].
    apply (Regex.m_star_cons _ [c] s); [now constructor | auto].
Qed.

Lemma matches_plus_class_iff p s :
  Regex.matches (Regex.plus (Regex.Class p)) s <->
  s <> [] /\ forallb p s = true.
Proof.
  unfold Regex.plus. rewrite matches_seq_iff. split.
  - intros (s1 & s2 & -> & H1 & H2).
    apply matches_class_iff in H1. destruct H1 as (c & -> & Hc).
    apply matches_star_class_iff in H2. cbn. split; [discriminate |].
    now rewrite Hc.
  - intros [Hne Hall]. destruct s as [| c s]; [congruence |].
    cbn in Hall. apply andb_true_iff in Hall. destruct Hall as [Hc Hs].
    exists [c], s. repeat split.
    + now constructor.
    + now apply matches_star_class_iff.
Qed.

Lemma email_part_iff ws s :
  BookTimeslot.email_part ws s <->
  s <> [] /\ forallb (fun c => negb (ws c || (c =? 64)%N)) s = true.
Proof.
  unfold BookTimeslot.email_part. rewrite forallb_forall.
  split; intros [Hne H]; (split; [exact Hne |]); intros c Hc.
  - destruct (H c Hc) as [Hw Ha]. rewrite Hw. cbn.
    apply negb_true_iff. now apply N.eqb_neq.
  - specialize (H c Hc). apply negb_true_iff, orb_false_iff in H.
    destruct H as [Hw Ha]. split; [exact Hw | now apply N.eqb_neq].
Qed.

Lemma emailRegex_iff ws s :
  Regex.test (BookTimeslot.emailRegex ws) s = true <->
  BookTimeslot.email_shape ws s.
Proof.
  rewrite test_iff. unfold BookTimeslot.emailRegex, BookTimeslot.email_shape.
  cbv zeta. rewrite matches_seq_iff. split.
  - intros (a & r1 & -> & Ha & H).
    apply matches_seq_iff in H. destruct H as (at_ & r2 & -> & Hat & H).
    apply matches_seq_iff in H. destruct H as (b & r3 & -> & Hb & H).
    apply matches_seq_iff in H. destruct H as (dot & c & -> & Hdot & Hc).
    apply matches_class_iff in Hat. destruct Hat as (x & -> & Hx).
    apply N.eqb_eq in Hx. subst x.
    apply matches_class_iff in Hdot. destruct Hdot as (y & -> & Hy).
    apply N.eqb_eq in Hy. subst y.
    apply matches_plus_class_iff, email_part_iff in Ha, Hb, Hc.
    exists a, b, c. tauto.
  - intros (a & b & c & -> & Ha & Hb & Hc).
    apply email_part_iff, matches_plus_class_iff in Ha, Hb, Hc.
    exists a, ([64%N] ++ b ++ [46%N] ++ c)%list. split; [reflexivity |].
    split; [exact Ha |].
    apply matches_seq_iff. exists [64%N], (b ++ [46%N] ++ c)%list.
    split; [reflexivity |]. split; [now constructor |].
    apply matches_seq_iff. exists b, ([46%N] ++ c)%list.
    split; [reflexivity |]. split; [exact Hb |].
    apply matches_seq_iff. exists [46%N], c.
    split; [reflexivity |]. split; [now constructor | exact Hc].
Qed.

(** ** The booking form *)

Lemma selected_iff selectedTimeslotId :
  BookTimeslot.selected selectedTimeslotId = true <->
  exists n, selectedTimeslotId = Some n /\ n <> 0.
Proof.
  destruct selectedTimeslotId as [n |]; cbn.
  - rewrite negb_true_iff, Z.eqb_neq. split.
    + intros H. now exists n.
    + intros (m & Hm & Hne). now injection Hm as ->.
  - split; [discriminate | intros (m & Hm & _); discriminate].
Qed.

Lemma nonblank_string_iff ws a :
  BookTimeslot.nonblank_string ws a = true <->
  exists s, a = BookTimeslot.AString s /\ JsString.visible ws s.
Proof.
  destruct a as [s | n | name | |]; cbn;
    try (split; [discriminate | intros (s' & H & _); discriminate]).
  rewrite negb_true_iff, trim_visible_iff. split.
  - intros H. now exists s.
  - intros (s' & H & Hv). now injection H as ->.
Qed.

(** The switch of [validateForm] accepts an answer exactly when it is what
    the type of the question asks for. *)
Lemma isAnswerValid_iff ws q a :
  BookTimeslot.isAnswerValid ws q a = true <->
  BookTimeslot.valid_answer ws q a.
Proof.
  unfold BookTimeslot.isAnswerValid, BookTimeslot.valid_answer.
  destruct (JsString.eqb (BookTimeslot.question_type q) (JsString.lit "text"))
    eqn:Et;
    [apply jsstring_eqb_eq in Et; rewrite Et; cbn [orb];
     rewrite nonblank_string_iff; split;
     [ intros H; left; split; [now left | exact H]
     | intros [[_ H] | [[H _] | [H _]]];
       [exact H | vm_compute in H; discriminate
       | vm_compute in H; discriminate] ] |].
  destruct (JsString.eqb (BookTimeslot.question_type q)
                         (JsString.lit "dropdown")) eqn:Ed;
    [apply jsstring_eqb_eq in Ed; rewrite Ed; cbn [orb];
     rewrite nonblank_string_iff; split;
     [ intros H; left; split; [now right | exact H]
     | intros [[_ H] | [[H _] | [H _]]];
       [exact H | vm_compute in H; discriminate
       | vm_compute in H; discriminate] ] |].
  cbn [orb].
  destruct (JsString.eqb (BookTimeslot.question_type q)
                         (JsString.lit "number")) eqn:En.
  { apply jsstring_eqb_eq in En. rewrite En. split.
    - intros H. right. left. split; [reflexivity |].
      destruct a as [s | [n |] | name | |];
        try (apply nonblank_string_iff in H; now right);
        left; now exists n.
    - intros [[[H | H] _] | [[_ H] | [H _]]];
        try (vm_compute in H; discriminate).
      destruct H as [(n & ->) | H]; [reflexivity |].
      destruct H as (s & -> & Hv). apply nonblank_string_iff. now exists s. }
  destruct (JsString.eqb (BookTimeslot.question_type q)
                         (JsString.lit "document")) eqn:Edoc.
  { apply jsstring_eqb_eq in Edoc. rewrite Edoc. split.
    - intros H. right. right. split; [reflexivity |].
      destruct a as [s | n | name | |]; try discriminate. now exists name.
    - intros [[[H | H] _] | [[H _] | [_ (name & ->)]]];
        try (vm_compute in H; discriminate).
      reflexivity. }
  split; [discriminate |].
  intros [[[H | H] _] | [[H _] | [H _]]];
    apply jsstring_eqb_eq in H; congruence.
Qed.

Lemma validate_required_iff ws required answers :
  BookTimeslot.validate_required ws required answers = true <->
  forall q, In q required ->
            BookTimeslot.isAnswerValid ws q
              (BookTimeslot.get answers (BookTimeslot.id q)) = true.
Proof.
  induction required as [| q rest IH]; cbn.
  - split; [intros _ q [] | reflexivity].
  - destruct (BookTimeslot.isAnswerValid ws q _) eqn:Hq; cbn.
    + rewrite IH. split.
      * intros H q' [<- | Hin]; auto.
      * intros H q' Hin. apply H. now right.
    + split; [discriminate |]. intros H.
      rewrite (H q) in Hq by now left. discriminate.
Qed.

Lemma validateForm_spec ws selectedTimeslotId questions answers :
  BookTimeslot.validateForm ws selectedTimeslotId questions answers = true <->
  BookTimeslot.selected selectedTimeslotId = true
  /\ forall q, In q questions -> BookTimeslot.is_required q = true ->
               BookTimeslot.isAnswerValid ws q
                 (BookTimeslot.get answers (BookTimeslot.id q)) = true.
Proof.
  unfold BookTimeslot.validateForm.
  destruct (BookTimeslot.selected selectedTimeslotId); cbn;
    [| split; [discriminate | intros [H _]; discriminate]].
  destruct questions as [| q0 qs]; cbn [List.length Nat.eqb].
  - split; [intros _; split; [reflexivity | intros q []] | reflexivity].
  - rewrite validate_required_iff. split.
    + intros H. split; [reflexivity |]. intros q Hin Hreq.
      apply H. apply filter_In. now split.
    + intros [_ H] q Hin. apply filter_In in Hin. now apply H.
Qed.

(** X11: the form is valid exactly when a timeslot is selected (an id
    other than [0]) and every required question has the answer its type
    asks for: a string with a code unit that is not white space for a text
    or a dropdown, such a string or a number that is not [NaN] for a
    number, a [File] for a document, and nothing for any other type.  Two
    answer maps that agree on the required questions give the same
    verdict, so answers to optional questions and to questions the form
    does not have never matter. *)
Theorem validateForm_iff ws selectedTimeslotId questions answers :
  (BookTimeslot.validateForm ws selectedTimeslotId questions answers = true
   <->
   (exists n, selectedTimeslotId = Some n /\ n <> 0)
   /\ forall q, In q questions -> BookTimeslot.is_required q = true ->
                BookTimeslot.valid_answer ws q
                  (BookTimeslot.get answers (BookTimeslot.id q)))
  /\ forall answers',
       (forall q, In q questions -> BookTimeslot.is_required q = true ->
                  BookTimeslot.get answers' (BookTimeslot.id q)
                  = BookTimeslot.get answers (BookTimeslot.id q)) ->
       BookTimeslot.validateForm ws selectedTimeslotId questions answers'
       = BookTimeslot.validateForm ws selectedTimeslotId questions answers.
Proof.
  split.
  - rewrite validateForm_spec, selected_iff.
    split; intros [Hsel H]; (split; [exact Hsel |]); intros q Hin Hreq.
    + apply isAnswerValid_iff. now apply H.
    + apply isAnswerValid_iff. now apply H.
  - intros answers' Hsame.
    apply Bool.eq_true_iff_eq. rewrite !validateForm_spec.
    split; intros [Hsel H]; (split; [exact Hsel |]); intros q Hin Hreq.
    + rewrite <- Hsame by assumption. now apply H.
    + rewrite Hsame by assumption. now apply H.
Qed.

Lemma get_set_same answers k v :
  BookTimeslot.get (BookTimeslot.set answers k v) k = v.
Proof.
  unfold BookTimeslot.get.
  induction answers as [| [k' v'] rest IH]; cbn.
  - now rewrite Z.eqb_refl.
  - destruct (k' =? k) eqn:E; cbn.
    + now rewrite Z.eqb_refl.
    + now rewrite E.
Qed.

Lemma get_set_other answers k v k' :
  k' <> k ->
  BookTimeslot.get (BookTimeslot.set answers k v) k'
  = BookTimeslot.get answers k'.
Proof.
  intros Hne. unfold BookTimeslot.get.
  induction answers as [| [k0 v0] rest IH]; cbn.
  - apply Z.eqb_neq in Hne. rewrite Z.eqb_sym in Hne. now rewrite Hne.
  - destruct (k0 =? k) eqn:E; cbn.
    + apply Z.eqb_eq in E. subst k0.
      apply Z.eqb_neq in Hne. rewrite Z.eqb_sym in Hne. now rewrite Hne.
    + destruct (k0 =? k'); [reflexivity | exact IH].
Qed.

(** After the answers have been initialised, the answer of every question
    of the form is the empty string or [null]. *)
Lemma initialAnswers_blank questions : forall acc k,
  (BookTimeslot.get acc k = BookTimeslot.AString []
   \/ BookTimeslot.get acc k = BookTimeslot.ANull)
  \/ In k (map BookTimeslot.id questions) ->
  let result :=
    fold_left
      (fun acc q =>
         BookTimeslot.set acc (BookTimeslot.id q)
           (if JsString.eqb (BookTimeslot.question_type q)
                            (JsString.lit "document")
            then BookTimeslot.ANull else BookTimeslot.AString []))
      questions acc in
  BookTimeslot.get result k = BookTimeslot.AString []
  \/ BookTimeslot.get result k = BookTimeslot.ANull.
Proof.
  induction questions as [| q qs IH]; intros acc k H; cbn.
  - destruct H as [H | []]. exact H.
  - apply IH. destruct (Z.eq_dec k (BookTimeslot.id q)) as [-> | Hne].
    + left. rewrite get_set_same.
      destruct (JsString.eqb _ _); auto.
    + rewrite get_set_other by exact Hne.
      destruct H as [H | [H | H]]; [now left | congruence | now right].
Qed.

Lemma blank_answer_invalid ws q a :
  a = BookTimeslot.AString [] \/ a = BookTimeslot.ANull ->
  BookTimeslot.isAnswerValid ws q a = false.
Proof.
  intros [-> | ->]; unfold BookTimeslot.isAnswerValid;
    repeat match goal with
           | |- context [if ?b then _ else _] => destruct b
           end; reflexivity.
Qed.

(** X12: with the answers as the component initialises them (on loading
    the questions and in [resetForm]), the form is valid exactly when a
    timeslot is selected and no question is required: the initial answer
    of a required question is never valid, whatever its type. *)
Theorem initial_answers_valid_iff ws selectedTimeslotId questions :
  BookTimeslot.validateForm ws selectedTimeslotId questions
    (BookTimeslot.initialAnswers questions) = true <->
  BookTimeslot.selected selectedTimeslotId = true
  /\ forall q, In q questions -> BookTimeslot.is_required q = false.
Proof.
  rewrite validateForm_spec. split; intros [Hsel H]; (split; [exact Hsel |]).
  - intros q Hin. destruct (BookTimeslot.is_required q) eqn:Hreq; [| easy].
    specialize (H q Hin Hreq).
    rewrite blank_answer_invalid in H; [discriminate |].
    apply initialAnswers_blank. right. now apply in_map.
  - intros q Hin Hreq. rewrite (H q Hin) in Hreq. discriminate.
Qed.

(** X13: the guest request goes out exactly when a timeslot (an id other
    than [0]) and an infrastructure are selected, the name has a code unit
    that is not white space, and the address has the shape
    [part@part.part], each part non-empty and free of white space and of
    [@]. *)
Theorem guest_request_sent_iff ws selectedTimeslotId selectedInfrastructure
        guestName guestEmail :
  BookTimeslot.handleGuestBooking_guard ws selectedTimeslotId
    selectedInfrastructure guestName guestEmail = None <->
  (exists n, selectedTimeslotId = Some n /\ n <> 0)
  /\ selectedInfrastructure <> None
  /\ JsString.visible ws guestName
  /\ BookTimeslot.email_shape ws guestEmail.
Proof.
  unfold BookTimeslot.handleGuestBooking_guard.
  rewrite <- emailRegex_iff, <- trim_visible_iff, <- selected_iff.
  destruct (BookTimeslot.selected selectedTimeslotId); cbn;
    [| split; [discriminate | intros [H _]; discriminate]].
  destruct selectedInfrastructure as [i |]; cbn;
    [| split; [discriminate | intros (_ & H & _); congruence]].
  destruct (JsString.eqb (JsString.trim ws guestName) []);
    [split; [discriminate | intros (_ & _ & H & _); discriminate] |].
  destruct (Regex.test (BookTimeslot.emailRegex ws) guestEmail) eqn:Hre.
  - assert (Hne : JsString.eqb (JsString.trim ws guestEmail) [] = false).
    { apply trim_visible_iff. apply emailRegex_iff in Hre.
      destruct Hre as (a & b & c & -> & [Ha1 Ha2] & _).
      destruct a as [| x a]; [congruence |].
      exists x. split; [now left |]. apply Ha2. now left. }
    rewrite Hne. cbn. split; [intros _; repeat split; congruence | reflexivity].
  - destruct (JsString.eqb (JsString.trim ws guestEmail) []); cbn;
      (split; [discriminate | intros (_ & _ & _ & H); discriminate]).
Qed.

(** ** The calendar *)

Lemma unique_spec xs : forall seen x,
  In x (BookTimeslot.unique seen xs) <-> In x xs /\ ~ In x seen.
Proof.
  induction xs as [| a xs IH]; intros seen x; cbn; [tauto |].
  destruct (existsb (Z.eqb a) seen) eqn:E.
  - rewrite IH. apply existsb_exists in E. destruct E as (y & Hy & Hay).
    apply Z.eqb_eq in Hay. subst y. split; [tauto |].
    intros [[<- | H] Hn]; [contradiction | tauto].
  - cbn. rewrite IH. cbn.
    assert (Hn : ~ In a seen).
    { intros Hin. apply Bool.not_true_iff_false in E. apply E.
      apply existsb_exists. exists a. split; [exact Hin | apply Z.eqb_refl]. }
    destruct (Z.eq_dec a x) as [-> | Hne]; [tauto |]. tauto.
Qed.

Lemma unique_nodup xs : forall seen, NoDup (BookTimeslot.unique seen xs).
Proof.
  induction xs as [| a xs IH]; intros seen; cbn; [constructor |].
  destruct (existsb (Z.eqb a) seen); [apply IH |].
  constructor; [| apply IH].
  rewrite unique_spec. cbn. tauto.
Qed.

Lemma availableDates_in startOfDay allTimeslots d :
  In d (BookTimeslot.availableDates startOfDay allTimeslots) <->
  exists slot, In slot allTimeslots
               /\ startOfDay (BookTimeslot.booking_date slot) = d.
Proof.
  unfold BookTimeslot.availableDates.
  destruct allTimeslots as [| s0 rest] eqn:Hall; cbn [List.length Nat.eqb].
  - split; [intros [] | intros (s & [] & _)].
  - rewrite <- Hall. rewrite unique_spec, in_map_iff. split.
    + intros [(s & Hs & Hin) _]. eauto.
    + intros (s & Hin & Hs). split; [eauto | intros []].
Qed.

(** X14: the available days of the calendar are listed without
    repetition, and they are exactly the days on which a listed timeslot
    starts. *)
Theorem availableDates_spec startOfDay allTimeslots :
  NoDup (BookTimeslot.availableDates startOfDay allTimeslots)
  /\ forall d,
       In d (BookTimeslot.availableDates startOfDay allTimeslots) <->
       exists slot, In slot allTimeslots
                    /\ startOfDay (BookTimeslot.booking_date slot) = d.
Proof.
  split; [| intros d; apply availableDates_in].
  unfold BookTimeslot.availableDates.
  destruct (List.length allTimeslots =? 0)%nat;
    [constructor | apply unique_nodup].
Qed.

Lemma date_enabled_spec startOfDay now selectedInfrastructure
      allTimeslots isLoadingTimeslots date :
  BookTimeslot.isDateDisabled startOfDay now selectedInfrastructure
    allTimeslots isLoadingTimeslots date = false <->
  selectedInfrastructure <> None
  /\ isLoadingTimeslots = false
  /\ startOfDay now <= date
  /\ exists slot, In slot allTimeslots
                  /\ startOfDay (BookTimeslot.booking_date slot) = date.
Proof.
  unfold BookTimeslot.isDateDisabled.
  destruct selectedInfrastructure as [i |]; cbn [orb];
    [| split; [discriminate | intros (H & _); congruence]].
  destruct allTimeslots as [| s0 rest] eqn:Hall; cbn [List.length Nat.eqb];
    [split; [discriminate | intros (_ & _ & _ & s & [] & _)] |].
  rewrite <- Hall.
  destruct (Z.ltb_spec date (startOfDay now));
    [split; [discriminate | intros (_ & _ & H' & _); lia] |].
  destruct isLoadingTimeslots;
    [split; [discriminate | intros (_ & H' & _); discriminate] |].
  rewrite negb_false_iff, existsb_exists. split.
  - intros (d & Hin & Hd). apply Z.eqb_eq in Hd. subst d.
    apply availableDates_in in Hin. repeat split; [discriminate | lia | easy].
  - intros (_ & _ & _ & Hex). exists date. split; [| apply Z.eqb_refl].
    now apply availableDates_in.
Qed.

(** X15: a day of the calendar is enabled exactly when an infrastructure
    is selected, the timeslots are not being loaded, the day is not before
    the start of today, and some listed timeslot starts on that day; in
    particular no day is enabled while the list of timeslots is empty. *)
Theorem isDateDisabled_false_iff startOfDay now selectedInfrastructure
        allTimeslots isLoadingTimeslots date :
  (BookTimeslot.isDateDisabled startOfDay now selectedInfrastructure
     allTimeslots isLoadingTimeslots date = false <->
   selectedInfrastructure <> None
   /\ isLoadingTimeslots = false
   /\ startOfDay now <= date
   /\ exists slot, In slot allTimeslots
                   /\ startOfDay (BookTimeslot.booking_date slot) = date)
  /\ BookTimeslot.isDateDisabled startOfDay now selectedInfrastructure
       [] isLoadingTimeslots date = true.
Proof.
  split; [apply date_enabled_spec |].
  unfold BookTimeslot.isDateDisabled. cbn. now rewrite orb_true_r.
Qed.

(** X16: when [startOfDay] maps a start of day to itself, selecting an
    enabled day always shows at least one timeslot, and only timeslots of
    that day. *)
Theorem enabled_date_has_timeslots startOfDay now selectedInfrastructure
        allTimeslots isLoadingTimeslots date :
  (forall t, startOfDay (startOfDay t) = startOfDay t) ->
  BookTimeslot.isDateDisabled startOfDay now selectedInfrastructure
    allTimeslots isLoadingTimeslots date = false ->
  BookTimeslot.dateTimeslots startOfDay (Some date) allTimeslots <> []
  /\ forall slot,
       In slot (BookTimeslot.dateTimeslots startOfDay (Some date) allTimeslots)
       -> In slot allTimeslots
          /\ startOfDay (BookTimeslot.booking_date slot) = date.
Proof.
  intros Hidem Hen. apply date_enabled_spec in Hen.
  destruct Hen as (_ & _ & _ & s & Hin & Hs).
  assert (Hdate : startOfDay date = date) by (rewrite <- Hs; apply Hidem).
  unfold BookTimeslot.dateTimeslots. rewrite Hdate.
  destruct allTimeslots as [| s0 rest] eqn:Hall; [destruct Hin |].
  cbn [List.length Nat.ltb Nat.leb]. rewrite <- Hall in *. split.
  - intros Hnil. rewrite filter_nil_iff in Hnil.
    specialize (Hnil s Hin). cbn in Hnil. rewrite Hs, Z.eqb_refl in Hnil.
    discriminate.
  - intros slot Hslot. apply filter_In in Hslot.
    destruct Hslot as [H1 H2]. apply Z.eqb_eq in H2. tauto.
Qed.

(** ** The selection of the timeslot list *)

Lemma includes_iff ids id : TimeslotList.includes ids id = true <-> In id ids.
Proof.
  unfold TimeslotList.includes. rewrite existsb_exists. split.
  - intros (x & Hin & Hx). apply Z.eqb_eq in Hx. now subst.
  - intros Hin. exists id. split; [exact Hin | apply Z.eqb_refl].
Qed.

(** X17: when the cancellation call resolves, the new selection is the old one
    without the cancelled ids, in the same order: nothing cancelled stays
    selected, everything else does; cancelling the whole selection
    empties it.  The data is refreshed afterwards. *)
Theorem cancelled_timeslots_leave_selection cancelTimeslots selected ids :
  ids <> [] -> cancelTimeslots ids = None ->
  exists message selection,
    TimeslotList.handleDeleteTimeslots cancelTimeslots selected ids
    = [TimeslotList.CancelTimeslots ids;
       TimeslotList.OnDelete message;
       TimeslotList.OnFilterStateChange selection;
       TimeslotList.OnDataChange]
    /\ (forall id, In id selection <-> In id selected /\ ~ In id ids)
    /\ (ids = selected -> selection = []).
Proof.
  intros Hne Hok. unfold TimeslotList.handleDeleteTimeslots.
  destruct ids as [| i ids']; [congruence |].
  cbn [List.length Nat.eqb]. rewrite Hok.
  eexists. eexists. split; [reflexivity |]. split.
  - intros id.
    rewrite filter_In, negb_true_iff, <- (includes_iff (i :: ids') id).
    destruct (TimeslotList.includes (i :: ids') id);
      intuition congruence.
  - intros Heq. apply filter_nil_iff. intros x Hx.
    apply negb_false_iff, includes_iff. now rewrite Heq.
Qed.

(** X18: ticking the box of a timeslot that is not selected and unticking it
    again gives back the selection; unticking removes every occurrence of
    the id and nothing else. *)
Theorem untick_after_tick selected id :
  ~ In id selected ->
  TimeslotList.onCheckedChange
    (TimeslotList.onCheckedChange selected id true) id false = selected.
Proof.
  intros Hnot. unfold TimeslotList.onCheckedChange.
  rewrite filter_app. cbn. rewrite Z.eqb_refl. cbn. rewrite app_nil_r.
  induction selected as [| a l IH]; cbn; [reflexivity |].
  destruct (a =? id) eqn:E.
  - apply Z.eqb_eq in E. subst a. exfalso. apply Hnot. now left.
  - cbn. f_equal. apply IH. intros H. apply Hnot. now right.
Qed.

(** ** The further properties on concrete inputs *)

Example email_accepted :
  Regex.test (BookTimeslot.emailRegex ClientExample.isWhiteSpace)
             (JsString.lit "guest@example.org") = true.
Proof. reflexivity. Qed.

Example email_without_dot_rejected :
  Regex.test (BookTimeslot.emailRegex ClientExample.isWhiteSpace)
             (JsString.lit "guest@example") = false.
Proof. reflexivity. Qed.

Example email_with_space_rejected :
  BookTimeslot.handleGuestBooking_guard ClientExample.isWhiteSpace
    (Some 3) (Some 5) (JsString.lit "Guest")
    (JsString.lit "gu est@example.org")
  = Some "bookTimeslot.msgErrEmailInvalid".
Proof. reflexivity. Qed.

Example blank_name_rejected :
  BookTimeslot.handleGuestBooking_guard ClientExample.isWhiteSpace
    (Some 3) (Some 5) (JsString.lit "   ")
    (JsString.lit "guest@example.org")
  = Some "bookTimeslot.msgErrName".
Proof. reflexivity. Qed.

(** A name that is the single character U+2003 (em space) is blank. *)
Example em_space_name_rejected :
  BookTimeslot.handleGuestBooking_guard ClientExample.isWhiteSpace
    (Some 3) (Some 5) [8195%N] (JsString.lit "guest@example.org")
  = Some "bookTimeslot.msgErrName".
Proof. reflexivity. Qed.

(** A required text question answered with U+3000 (ideographic space)
    keeps the form invalid; answered with a Hebrew letter it is valid. *)
Example ideographic_space_answer_invalid :
  BookTimeslot.validateForm ClientExample.isWhiteSpace (Some 3)
    [BookTimeslot.mkQuestion 1 [] (JsString.lit "text") true None]
    [(1, BookTimeslot.AString [12288%N])] = false.
Proof. reflexivity. Qed.

Example hebrew_answer_valid :
  BookTimeslot.validateForm ClientExample.isWhiteSpace (Some 3)
    [BookTimeslot.mkQuestion 1 [] (JsString.lit "text") true None]
    [(1, BookTimeslot.AString [1488%N])] = true.
Proof. reflexivity. Qed.

Lemma example_startOfDay_idempotent t :
  ClientExample.startOfDay (ClientExample.startOfDay t)
  = ClientExample.startOfDay t.
Proof.
  unfold ClientExample.startOfDay.
  rewrite (Z.mul_comm 86400000 (t / 86400000)), Z.div_mul by discriminate.
  apply Z.mul_comm.
Qed.

Local Abbreviation serve2 :=
  (request Example.clock Example.reliable
           SpecModel.AdminRejectOrCancelBooking Example.delivers).

Lemma success_answer_follows_commit_witness :
  tx (serve2 "approve" "T1" Example.world) = None
  /\ exists pre,
       trace (serve2 "approve" "T1" Example.world)
       = (pre ++ [Commit; Respond (success_response "approve"); Release])%list.
Proof.
  destruct (success_answer_follows_commit
              Example.clock Example.reliable
              SpecModel.AdminRejectOrCancelBooking Example.delivers
              "approve" "T1" Example.world (success_response "approve"))
    as (_ & Htx & Hpre); [ vm_compute; reflexivity | reflexivity | ].
  exact (conj Htx Hpre).
Defined.

Lemma error_answer_means_rolled_back_witness :
  db (request Example.clock Example.commit_fails
              SpecModel.AdminRejectOrCancelBooking Example.delivers
              "approve" "T1" Example.world) = Example.store.
Proof.
  destruct (error_answer_means_rolled_back
              Example.clock Example.commit_fails
              SpecModel.AdminRejectOrCancelBooking Example.delivers
              "approve" "T1" Example.world)
    as (Hdb & _); [ reflexivity | vm_compute; reflexivity | ].
  exact Hdb.
Defined.

Lemma nothing_durable_without_commit_witness :
  committed_store
    (request Example.clock Example.commit_fails
             SpecModel.AdminRejectOrCancelBooking Example.delivers
             "approve" "T1" Example.world) = Example.store.
Proof.
  apply (nothing_durable_without_commit
           Example.clock Example.commit_fails
           SpecModel.AdminRejectOrCancelBooking Example.delivers
           "approve" "T1" Example.world);
    [ reflexivity | vm_compute; reflexivity ].
Defined.

Lemma no_write_without_booking_witness :
  committed_store (serve2 "approve" "T3" Example.world) = Example.store.
Proof.
  destruct (no_write_without_booking
              Example.clock Example.reliable
              SpecModel.AdminRejectOrCancelBooking Example.delivers
              "approve" "T3" Example.world) as (Hdb & _).
  - reflexivity.
  - intros t ts H. vm_compute in H. injection H as <- <-. reflexivity.
  - exact Hdb.
Defined.

Lemma non_pending_booking_untouched_witness :
  bookings (committed_store (serve2 "reject" "T2" Example.world))
  = bookings Example.store
  /\ existsb is_send (trace (serve2 "reject" "T2" Example.world)) = false.
Proof.
  destruct (non_pending_booking_untouched
              Example.clock Example.reliable
              SpecModel.AdminRejectOrCancelBooking Example.delivers
              "reject" "T2" Example.world) as (Hbk & _ & Hsend).
  - reflexivity.
  - intros t ts b bs Ht Hb. vm_compute in Ht. injection Ht as <- <-.
    vm_compute in Hb. injection Hb as <- <-. discriminate.
  - exact (conj Hbk Hsend).
Defined.

Lemma token_rows_only_gain_used_witness :
  Forall2 token_row_evolves
          (email_action_tokens Example.store)
          (email_action_tokens
             (committed_store (serve2 "reject" "T1" Example.world)))
  \/ committed_store (serve2 "reject" "T1" Example.world)
     = committed_store Example.world.
Proof.
  apply (token_rows_only_gain_used
           Example.clock Example.reliable
           SpecModel.AdminRejectOrCancelBooking Example.delivers
           "reject" "T1" Example.world).
  exact model_preserves_tokens.
Defined.

Lemma replay_after_already_processed_witness :
  res (serve2 "reject" "T2" (serve2 "reject" "T2" Example.world))
  = Some invalid_token_response.
Proof.
  destruct (replay_after_already_processed
              Example.clock Example.reliable
              SpecModel.AdminRejectOrCancelBooking Example.delivers
              "reject" "reject" "T2" Example.world "approved")
    as (Hres & _);
    [ exact example_reliable | exact example_token_values_unique
    | right; reflexivity | vm_compute; reflexivity | ].
  exact Hres.
Defined.

Lemma first_decision_wins_witness :
  res (serve2 "reject" "T5" (serve2 "approve" "T1" ClientExample.world))
  = Some (already_processed_response "approved")
  /\ bookings (db (serve2 "reject" "T5"
                          (serve2 "approve" "T1" ClientExample.world)))
     = bookings (db (serve2 "approve" "T1" ClientExample.world)).
Proof.
  destruct (first_decision_wins
              Example.clock Example.reliable
              SpecModel.AdminRejectOrCancelBooking Example.delivers
              "reject" "T1" "T5" ClientExample.world
              Example.T1 [] Example.B42 []
              ClientExample.T5 [])
    as (_ & Hres & Hbk & _);
    [ right; reflexivity | exact example_reliable
    | vm_compute; reflexivity | vm_compute; reflexivity | reflexivity
    | vm_compute; reflexivity | vm_compute; reflexivity | reflexivity | ].
  exact (conj Hres Hbk).
Defined.

Lemma enabled_date_has_timeslots_witness :
  BookTimeslot.dateTimeslots ClientExample.startOfDay (Some 1740787200000)
    ClientExample.slots <> [].
Proof.
  destruct (enabled_date_has_timeslots
              ClientExample.startOfDay 1740700000000 (Some 5)
              ClientExample.slots false 1740787200000)
    as (Hne & _);
    [ exact example_startOfDay_idempotent | vm_compute; reflexivity | ].
  exact Hne.
Defined.

Lemma cancelled_timeslots_leave_selection_witness :
  exists message selection,
    TimeslotList.handleDeleteTimeslots (fun _ => None) [4; 7; 9] [7; 9]
    = [TimeslotList.CancelTimeslots [7; 9];
       TimeslotList.OnDelete message;
       TimeslotList.OnFilterStateChange selection;
       TimeslotList.OnDataChange]
    /\ (forall id, In id selection <-> In id [4; 7; 9] /\ ~ In id [7; 9]).
Proof.
  destruct (cancelled_timeslots_leave_selection
              (fun _ => None) [4; 7; 9] [7; 9])
    as (message & selection & Hcalls & Hsel & _);
    [ discriminate | reflexivity | ].
  exists message, selection. exact (conj Hcalls Hsel).
Defined.

Lemma untick_after_tick_witness :
  TimeslotList.onCheckedChange
    (TimeslotList.onCheckedChange [4; 7] 9 true) 9 false = [4; 7].
Proof.
  apply (untick_after_tick [4; 7] 9).
  intros [H | [H | H]]; [discriminate | discriminate | exact H].
Defined.
